(** * cmdex: alias store and placeholder substitution

    A shallow embedding of [main.go]: the command-line tool that keeps
    alias -> command-template pairs in one bbolt bucket and runs a stored
    template after substituting positional placeholders.

    Go strings are byte sequences; they are embedded as [string] (a
    sequence of 8-bit [ascii]).  Go [int] values are embedded as [Z]. *)

From Stdlib Require Import ZArith Lia Bool List Ascii String.
From Stdlib Require Import Decimal DecimalString DecimalPos DecimalZ.
From Stdlib Require Import DecimalFacts.
From stdpp Require Import base option list sorting gmap strings.

Open Scope string_scope.
Open Scope Z_scope.

(* ===================================================================== *)
(** * The parts of the Go standard library that [main.go] calls           *)
(* ===================================================================== *)

Module GoStrings.

(** [len(s)]. *)
Definition len (s : string) : Z := Z.of_nat (String.length s).

(** [s[lo:hi]] for [0 <= lo <= hi <= len(s)]. *)
Definition slice (s : string) (lo hi : Z) : string :=
  String.substring (Z.to_nat lo) (Z.to_nat (hi - lo)) s.

(** Removal of the first [n] bytes, [s[n:]] cut off at the end of [s]. *)
Fixpoint drop (n : nat) (s : string) : string :=
  match n, s with
  | O, _ => s
  | S _, EmptyString => EmptyString
  | S k, String _ t => drop k t
  end.

(** The byte value of a character, [0 .. 255]. *)
Definition byte_val (c : ascii) : Z := Z.of_N (N_of_ascii c).

(** The line feed written by [fmt.Println] and by the "\n" of the
    format strings. *)
Definition nl : string := String (ascii_of_nat 10) EmptyString.

(** ** [fmt.Sprintf("%d", n)] *)

(** Decimal rendering of a Go [int]: a minus sign for negative values,
    no leading zeros, ["0"] for zero. *)
Definition itoa (n : Z) : string := NilZero.string_of_int (Z.to_int n).

(** ** [strings.Join] *)

Definition Join (elems : list string) (sep : string) : string :=
  String.concat sep elems.

(** ** [utf8.DecodeRuneInString] *)

Definition RuneError : Z := 0xFFFD.

(** The continuation-byte range accepted after the lead byte [b0], and the
    length of the sequence it announces ([first] and [acceptRanges] of
    package [unicode/utf8]).  [None] for bytes that cannot start a
    multi-byte sequence. *)
Definition lead_info (b0 : Z) : option (nat * Z * Z) :=
  if (0xC2 <=? b0) && (b0 <=? 0xDF) then Some (2%nat, 0x80, 0xBF)
  else if b0 =? 0xE0 then Some (3%nat, 0xA0, 0xBF)
  else if (0xE1 <=? b0) && (b0 <=? 0xEC) then Some (3%nat, 0x80, 0xBF)
  else if b0 =? 0xED then Some (3%nat, 0x80, 0x9F)
  else if (0xEE <=? b0) && (b0 <=? 0xEF) then Some (3%nat, 0x80, 0xBF)
  else if b0 =? 0xF0 then Some (4%nat, 0x90, 0xBF)
  else if (0xF1 <=? b0) && (b0 <=? 0xF3) then Some (4%nat, 0x80, 0xBF)
  else if b0 =? 0xF4 then Some (4%nat, 0x80, 0x8F)
  else None.

Definition is_cont (b : Z) : bool := (0x80 <=? b) && (b <=? 0xBF).

(** The rune at the start of [s] and its width in bytes.  An invalid or
    truncated encoding yields [(RuneError, 1)]; the empty string yields
    [(RuneError, 0)]. *)
Definition DecodeRuneInString (s : string) : Z * nat :=
  match s with
  | EmptyString => (RuneError, 0%nat)
  | String c0 t =>
      let s0 := byte_val c0 in
      if s0 <? 0x80 then (s0, 1%nat)
      else
        match lead_info s0 with
        | None => (RuneError, 1%nat)
        | Some (sz, lo, hi) =>
            match t with
            | EmptyString => (RuneError, 1%nat)
            | String c1 t1 =>
                let s1 := byte_val c1 in
                if (s1 <? lo) || (hi <? s1) then (RuneError, 1%nat)
                else if (sz <=? 2)%nat then
                  (Z.lor (Z.shiftl (Z.land s0 0x1F) 6) (Z.land s1 0x3F), 2%nat)
                else
                  match t1 with
                  | EmptyString => (RuneError, 1%nat)
                  | String c2 t2 =>
                      let s2 := byte_val c2 in
                      if negb (is_cont s2) then (RuneError, 1%nat)
                      else if (sz <=? 3)%nat then
                        (Z.lor (Z.shiftl (Z.land s0 0x0F) 12)
                           (Z.lor (Z.shiftl (Z.land s1 0x3F) 6) (Z.land s2 0x3F)),
                         3%nat)
                      else
                        match t2 with
                        | EmptyString => (RuneError, 1%nat)
                        | String c3 _ =>
                            let s3 := byte_val c3 in
                            if negb (is_cont s3) then (RuneError, 1%nat)
                            else
                              (Z.lor (Z.shiftl (Z.land s0 0x07) 18)
                                 (Z.lor (Z.shiftl (Z.land s1 0x3F) 12)
                                    (Z.lor (Z.shiftl (Z.land s2 0x3F) 6)
                                       (Z.land s3 0x3F))),
                               4%nat)
                        end
                  end
            end
        end
  end.

(** [for i, r := range s]: the byte index and the rune of every decoding
    step.  [skip] counts the bytes that still belong to the rune decoded
    last. *)
Fixpoint range_from (i : Z) (skip : nat) (s : string) : list (Z * Z) :=
  match s with
  | EmptyString => []
  | String _ t =>
      match skip with
      | S k => range_from (i + 1) k t
      | O =>
          let '(r, w) := DecodeRuneInString s in
          (i, r) :: range_from (i + 1) (Nat.pred w) t
      end
  end.

Definition range_string (s : string) : list (Z * Z) := range_from 0 0 s.

(** ** [unicode.IsSpace] *)

Definition IsSpace (r : Z) : bool :=
  if (0 <=? r) && (r <=? 0xFF) then
    (r =? 0x09) || (r =? 0x0A) || (r =? 0x0B) || (r =? 0x0C) || (r =? 0x0D)
    || (r =? 0x20) || (r =? 0x85) || (r =? 0xA0)
  else
    (r =? 0x1680) || ((0x2000 <=? r) && (r <=? 0x200A))
    || (r =? 0x2028) || (r =? 0x2029) || (r =? 0x202F) || (r =? 0x205F)
    || (r =? 0x3000).

(** ** [strings.FieldsFunc] and [strings.Fields] *)

(** The loop of [FieldsFunc]: [start] is the byte index where the current
    field began, or negative between fields; a separator rune closes the
    open field and flips [start] to [^start]. *)
Fixpoint fields_loop (f : Z -> bool) (rs : list (Z * Z))
    (start : Z) (spans : list (Z * Z)) : Z * list (Z * Z) :=
  match rs with
  | [] => (start, spans)
  | (end_, r) :: rs' =>
      if f r then
        if 0 <=? start
        then fields_loop f rs' (Z.lnot start) (spans ++ [(start, end_)])
        else fields_loop f rs' start spans
      else
        if start <? 0
        then fields_loop f rs' end_ spans
        else fields_loop f rs' start spans
  end.

Definition field_spans (f : Z -> bool) (s : string) : list (Z * Z) :=
  let '(start, spans) := fields_loop f (range_string s) (-1) [] in
  if 0 <=? start then spans ++ [(start, len s)] else spans.

Definition FieldsFunc (s : string) (f : Z -> bool) : list string :=
  map (fun sp => slice s (fst sp) (snd sp)) (field_spans f s).

Definition Fields (s : string) : list string := FieldsFunc s IsSpace.

(** ** [strings.ReplaceAll] *)

(** Left-to-right scan for a non-empty [old]: at a position where [old]
    starts, [new] is written and the bytes of [old] are skipped; any other
    byte is copied. *)
Fixpoint replace_scan (old new : string) (skip : nat) (s : string) : string :=
  match s with
  | EmptyString => EmptyString
  | String c t =>
      match skip with
      | S k => replace_scan old new k t
      | O =>
          if String.prefix old s
          then new ++ replace_scan old new (Nat.pred (String.length old)) t
          else String c (replace_scan old new 0 t)
      end
  end.

(** For an empty [old], [new] is written after every rune (and once at the
    start, see [ReplaceAll]). *)
Fixpoint replace_runes (new : string) (skip : nat) (s : string) : string :=
  match s with
  | EmptyString => EmptyString
  | String c t =>
      match skip with
      | S (S k) => String c (replace_runes new (S k) t)
      | S O => String c (new ++ replace_runes new 0 t)
      | O =>
          match snd (DecodeRuneInString s) with
          | S (S k) => String c (replace_runes new (S k) t)
          | _ => String c (new ++ replace_runes new 0 t)
          end
      end
  end.

Definition ReplaceAll (s old new : string) : string :=
  match old with
  | EmptyString => new ++ replace_runes new 0 s
  | String _ _ => replace_scan old new 0 s
  end.

End GoStrings.

Export GoStrings.

(* ===================================================================== *)
(** * The bbolt bucket                                                    *)
(* ===================================================================== *)

Module Bolt.

(** The content of the bucket named "commands": keys and values are byte
    strings, every key occurs once. *)
Abbreviation Bucket := (gmap string string).

(** A Go [error] is carried by its message, which is all the program ever
    looks at (it prints it with [%v]). *)
Abbreviation error := string (only parsing).

Definition MaxKeySize : Z := 32768.
Definition MaxValueSize : Z := Z.shiftl 1 31 - 2.

Definition ErrKeyRequired : error := "key required".
Definition ErrKeyTooLarge : error := "key too large".
Definition ErrValueTooLarge : error := "value too large".

(** [b.Get(key)]: [nil] exactly when the key is absent; a key stored with
    an empty value is present. *)
Definition Get (b : Bucket) (key : string) : option string := b !! key.

(** [b.Put(key, value)]: rejects an empty key and oversized keys and
    values, otherwise inserts or overwrites. *)
Definition Put (b : Bucket) (key value : string) : error + Bucket :=
  if len key =? 0 then inl ErrKeyRequired
  else if MaxKeySize <? len key then inl ErrKeyTooLarge
  else if MaxValueSize <? len value then inl ErrValueTooLarge
  else inr (<[key := value]> b).

(** The entries in the order [b.ForEach] visits them: ascending byte-wise
    key order. *)
Definition entries (b : Bucket) : list (string * string) :=
  merge_sort (fun x y => String.le (fst x) (fst y)) (map_to_list b).

(** [db.Update(fn)]: the changes made by [fn] are kept only if [fn]
    returns [nil] and the commit succeeds; [commit] is the error of a
    failing commit. *)
Definition Update (commit : option error) (fn : Bucket -> error + Bucket)
    (b : Bucket) : option error * Bucket :=
  match fn b with
  | inl e => (Some e, b)
  | inr b' =>
      match commit with
      | Some e => (Some e, b)
      | None => (None, b')
      end
  end.

(** [db.View(fn)]: a read-only transaction on an open database fails only
    when [fn] does. *)
Definition View {A : Type} (fn : Bucket -> error + A) (b : Bucket) : error + A :=
  fn b.

End Bolt.

Export Bolt.

(* ===================================================================== *)
(** * [main.go]                                                           *)
(* ===================================================================== *)

(** What the surroundings decide during one run of the process. *)
Record World := {
  open_fault : option error;    (** [bolt.Open] fails with this error *)
  init_fault : option error;    (** the bucket-creating transaction fails *)
  commit_fault : option error;  (** the handler's write transaction fails to commit *)
  run_child : string -> list string -> option error
                                (** the result of [cmd.Run()] *)
}.

(** Errors of cobra's own argument handling. *)
Inductive CobraError :=
| UnknownCommand (name : string)
| TooFewArgs (need got : nat).

(** What the process does that can be seen from outside. *)
Inductive Event :=
| Print (text : string)                     (** written to standard output *)
| PrintlnErr (e : CobraError)               (** [fmt.Println(err)] in [main] *)
| Help                                      (** [cmd.Help()] *)
| Exec (name : string) (argv : list string) (** [exec.Command(name, argv...).Run()] *)
| LogFatal (e : error).                     (** [log.Fatal(err)] *)

Inductive Completion := Returned | Panicked.

(** The result of running a handler. *)
Record Ran := {
  events : list Event;
  bucket : Bucket;
  completion : Completion
}.

Definition returned (evs : list Event) (b : Bucket) : Ran :=
  {| events := evs; bucket := b; completion := Returned |}.

(** [args[0]] on an empty slice. *)
Definition index_panic (b : Bucket) : Ran :=
  {| events := []; bucket := b; completion := Panicked |}.

(** [fmt.Sprintf("$%d", i+1)] *)
Definition placeholder (i : Z) : string := "$" ++ itoa (i + 1).

(** The loop [for i, arg := range args] of [runCommand], entered at index
    [i] with the remaining arguments. *)
Fixpoint substitute_from (i : Z) (args : list string) (command : string) : string :=
  match args with
  | [] => command
  | arg :: rest =>
      substitute_from (i + 1) rest (ReplaceAll command (placeholder i) arg)
  end.

Definition substitute (command : string) (args : list string) : string :=
  substitute_from 0 args command.

Definition runCommand (w : World) (b : Bucket) (alias : string)
    (args : list string) : Ran :=
  match View (fun b => match Get b alias with
                       | None => inl "alias not found"
                       | Some v => inr v
                       end) b with
  | inl err => returned [Print ("Error retrieving command: " ++ err ++ nl)] b
  | inr command =>
      let command := substitute command args in
      match Fields command with
      | [] => returned [Print ("Empty command" ++ nl)] b
      | name :: argv =>
          match run_child w name argv with
          | Some err =>
              returned [Exec name argv;
                        Print ("Error executing command: " ++ err ++ nl)] b
          | None => returned [Exec name argv] b
          end
      end
  end.

Definition saveCmd (w : World) (b : Bucket) (args : list string) : Ran :=
  match args with
  | [] => index_panic b
  | alias :: rest =>
      let command := Join rest " " in
      match Update (commit_fault w) (fun b => Put b alias command) b with
      | (Some err, b') => returned [Print ("Error saving command: " ++ err ++ nl)] b'
      | (None, b') => returned [Print ("Command saved with alias: " ++ alias ++ nl)] b'
      end
  end.

Definition listCmd (w : World) (b : Bucket) (args : list string) : Ran :=
  match View (fun b => inr (map (fun kv => Print (fst kv ++ ": " ++ snd kv ++ nl))
                              (entries b))) b with
  | inl err => returned [Print ("Error listing commands: " ++ err ++ nl)] b
  | inr lines => returned lines b
  end.

Definition editCmd (w : World) (b : Bucket) (args : list string) : Ran :=
  match args with
  | [] => index_panic b
  | alias :: rest =>
      let newCommand := Join rest " " in
      match Update (commit_fault w)
              (fun b => match Get b alias with
                        | None => inl "alias not found"
                        | Some _ => Put b alias newCommand
                        end) b with
      | (Some err, b') => returned [Print ("Error editing command: " ++ err ++ nl)] b'
      | (None, b') => returned [Print ("Command updated for alias: " ++ alias ++ nl)] b'
      end
  end.

Definition runCmd (w : World) (b : Bucket) (args : list string) : Ran :=
  match args with
  | [] => index_panic b
  | alias :: rest => runCommand w b alias rest
  end.

(** The [Run] function of the root command. *)
Definition rootCmd (w : World) (b : Bucket) (args : list string) : Ran :=
  match args with
  | alias :: rest => runCommand w b alias rest
  | [] => returned [Help] b
  end.

(** ** Command-line routing by cobra

    [rootCmd.Execute()] picks the command and validates its positional
    arguments before any [Run] function is called ([Command.Find] with its
    legacy argument validation, then [Command.ValidateArgs]).  Modelled for
    command lines made of plain words only: no empty argument, none that
    begins with '-' (flag syntax), and no first word naming a command that
    cobra adds on its own.  Outside of that, [route] gives [None]. *)

Inductive Route :=
| ToRoot (args : list string)
| ToSave (args : list string)
| ToList (args : list string)
| ToEdit (args : list string)
| ToRun (args : list string).

Definition plain (s : string) : bool :=
  negb (String.eqb s "") && negb (String.prefix "-" s).

Definition cobra_builtin (name : string) : bool :=
  String.eqb name "help" || String.eqb name "completion"
  || String.eqb name "__complete" || String.eqb name "__completeNoDesc".

(** [cobra.MinimumNArgs(n)] *)
Definition MinimumNArgs (n : nat) (args : list string) : option CobraError :=
  if (length args <? n)%nat then Some (TooFewArgs n (length args)) else None.

Definition validated (check : option CobraError) (r : Route) : CobraError + Route :=
  match check with
  | Some e => inl e
  | None => inr r
  end.

Definition route (argv : list string) : option (CobraError + Route) :=
  if negb (forallb plain argv) then None
  else
    match argv with
    | [] => Some (inr (ToRoot []))
    | name :: rest =>
        if cobra_builtin name then None
        else if String.eqb name "save" then
          Some (validated (MinimumNArgs 2 rest) (ToSave rest))
        else if String.eqb name "list" then Some (inr (ToList rest))
        else if String.eqb name "edit" then
          Some (validated (MinimumNArgs 2 rest) (ToEdit rest))
        else if String.eqb name "run" then
          Some (validated (MinimumNArgs 1 rest) (ToRun rest))
        else
          (* the root command has subcommands and no [Args] validator:
             a first word that names no subcommand is rejected *)
          Some (inl (UnknownCommand name))
    end.

Definition dispatch (w : World) (b : Bucket) (r : Route) : Ran :=
  match r with
  | ToRoot args => rootCmd w b args
  | ToSave args => saveCmd w b args
  | ToList args => listCmd w b args
  | ToEdit args => editCmd w b args
  | ToRun args => runCmd w b args
  end.

(** One run of the process: what it did, the bucket it leaves on disk and
    its exit status. *)
Record Outcome := {
  trace : list Event;
  store : Bucket;
  exit_code : Z
}.

(** [main], started with the bucket content [disk] and the command-line
    arguments [argv] (program name excluded). *)
Definition main (w : World) (disk : Bucket) (argv : list string) : option Outcome :=
  match open_fault w with
  | Some e => Some {| trace := [LogFatal e]; store := disk; exit_code := 1 |}
  | None =>
      match init_fault w with
      | Some e => Some {| trace := [LogFatal e]; store := disk; exit_code := 1 |}
      | None =>
          match route argv with
          | None => None
          | Some (inl e) =>
              Some {| trace := [PrintlnErr e]; store := disk; exit_code := 1 |}
          | Some (inr r) =>
              let ran := dispatch w disk r in
              Some {| trace := events ran; store := bucket ran;
                      exit_code := match completion ran with
                                   | Returned => 0
                                   | Panicked => 2
                                   end |}
          end
      end
  end.

(* ===================================================================== *)
(** * The substitution in the words of the specification                  *)
(* ===================================================================== *)

(** The substitution as the specification words it: for the indices
    [i = 1, 2, ..., n] in ascending order, every occurrence of "$i" in the
    current string is replaced by [args[i-1]]. *)
Fixpoint spec_passes (n : nat) (args : list string) (template : string) : string :=
  match n with
  | O => template
  | S m =>
      let current := spec_passes m args template in
      match args !! m with
      | Some arg => ReplaceAll current ("$" ++ itoa (Z.of_nat (S m))) arg
      | None => current
      end
  end.

Definition spec_substitute (template : string) (args : list string) : string :=
  spec_passes (length args) args template.

(* ===================================================================== *)
(** * Auxiliary notions for the proofs                                    *)
(* ===================================================================== *)

(** Occurrence of a byte in a string. *)
Fixpoint has_byte (c : ascii) (s : string) : bool :=
  match s with
  | EmptyString => false
  | String x t => Ascii.eqb x c || has_byte c t
  end.

(** Digit sequences, most significant digit first, one after the other. *)
Fixpoint uapp (a b : uint) : uint :=
  match a with
  | Nil => b
  | D0 a => D0 (uapp a b) | D1 a => D1 (uapp a b) | D2 a => D2 (uapp a b)
  | D3 a => D3 (uapp a b) | D4 a => D4 (uapp a b) | D5 a => D5 (uapp a b)
  | D6 a => D6 (uapp a b) | D7 a => D7 (uapp a b) | D8 a => D8 (uapp a b)
  | D9 a => D9 (uapp a b)
  end.

(** What bbolt's [Put] accepts: a non-empty key of at most [MaxKeySize]
    bytes and a value of at most [MaxValueSize] bytes. *)
Definition storable (key value : string) : bool :=
  (0 <? len key) && (len key <=? MaxKeySize) && (len value <=? MaxValueSize).

(** A run in which nothing outside of the program fails. *)
Definition quiet_world : World :=
  {| open_fault := None; init_fault := None; commit_fault := None;
     run_child := fun _ _ => None |}.

(* ===================================================================== *)
(** * Notions for the further properties                                  *)
(* ===================================================================== *)

(** A key that bbolt accepts. *)
Definition valid_key (key : string) : bool :=
  (0 <? len key) && (len key <=? MaxKeySize).

(** The line that [list] prints for an entry. *)
Definition list_line (kv : string * string) : Event :=
  Print (fst kv ++ ": " ++ snd kv ++ nl).

Definition is_exec (e : Event) : bool :=
  match e with
  | Exec _ _ => true
  | _ => false
  end.

(** The stores that runs of the program produce, starting without any
    entry. *)
Inductive reachable : Bucket -> Prop :=
| reachable_empty : reachable ∅
| reachable_run (w : World) (disk : Bucket) (argv : list string) (out : Outcome) :
    reachable disk -> main w disk argv = Some out -> reachable (store out).

(** A word that [strings.Fields] gives back as it is: not empty and
    without any white-space rune. *)
Definition clean_word (x : string) : bool :=
  negb (String.eqb x "")
  && forallb (fun ir => negb (IsSpace (snd ir))) (range_string x).

(** The indices of a [range] loop: each at least [lo] and larger than the
    one before. *)
Fixpoint ascending (lo : Z) (rs : list (Z * Z)) : Prop :=
  match rs with
  | [] => True
  | (e, _) :: rs' => lo <= e /\ ascending (e + 1) rs'
  end.

(** [strings.Contains]-like test: [sub] occurs in [s]. *)
Fixpoint contains (sub s : string) : bool :=
  String.prefix sub s
  || match s with
     | EmptyString => false
     | String _ t => contains sub t
     end.

(** None of the placeholders of the first [n] arguments occurs in the
    template. *)
Definition placeholders_absent (template : string) (n : nat) : bool :=
  forallb (fun i => negb (contains (placeholder (Z.of_nat i)) template)) (seq 0 n).


(** A stretch [a, b) of a string whose runes are listed in [rs]: it starts
    at a rune, ends at a rune or at [hi], the end of the string, is not
    empty and holds no rune that [f] takes for a separator. *)
Definition field_span (f : Z -> bool) (rs : list (Z * Z)) (hi : Z)
    (sp : Z * Z) : Prop :=
  fst sp ∈ map fst rs
  /\ (snd sp ∈ map fst rs \/ snd sp = hi)
  /\ fst sp < snd sp
  /\ forall ir, ir ∈ rs -> fst sp <= fst ir < snd sp -> f (snd ir) = false.

(* ===================================================================== *)
(** * Facts about strings                                                 *)
(* ===================================================================== *)

(** To show that a string does not start another one: assume that it
    does, as hypothesis [E], and derive a contradiction. *)
Ltac refute_prefix E :=
  match goal with
  | |- String.prefix ?p ?s = false =>
      destruct (String.prefix p s) eqn:E; [exfalso | reflexivity]
  end.

Section StringFacts.

Lemma append_cons (x : ascii) (a b : string) : String x a ++ b = String x (a ++ b).
Proof. reflexivity. Qed.

Lemma append_nil_l (a : string) : "" ++ a = a.
Proof. reflexivity. Qed.

Lemma append_assoc (a b c : string) : (a ++ b) ++ c = a ++ (b ++ c).
Proof.
  induction a as [|x a IH]; [reflexivity|].
  rewrite !append_cons. now rewrite IH.
Qed.

Lemma append_nil_r (a : string) : a ++ "" = a.
Proof.
  induction a as [|x a IH]; [reflexivity|].
  rewrite append_cons. now rewrite IH.
Qed.

Lemma length_append (a b : string) :
  String.length (a ++ b) = (String.length a + String.length b)%nat.
Proof.
  induction a as [|x a IH]; [reflexivity|].
  rewrite append_cons. simpl. now rewrite IH.
Qed.

Lemma prefix_cons (x y : ascii) (p s : string) :
  String.prefix (String x p) (String y s) = true <-> x = y /\ String.prefix p s = true.
Proof.
  simpl. destruct (ascii_dec x y) as [->|Hne].
  - tauto.
  - split; [discriminate | intros [? _]; contradiction].
Qed.

Lemma prefix_append (p r : string) : String.prefix p (p ++ r) = true.
Proof.
  induction p as [|x p IH]; [now destruct r|].
  rewrite append_cons. apply prefix_cons. auto.
Qed.

Lemma prefix_split (p s : string) :
  String.prefix p s = true -> s = p ++ drop (String.length p) s.
Proof.
  revert s. induction p as [|x p IH]; intros s H; [reflexivity|].
  destruct s as [|y s]; [discriminate|].
  apply prefix_cons in H as [-> H]. rewrite append_cons. simpl. f_equal. auto.
Qed.

Lemma drop_append (p r : string) : drop (String.length p) (p ++ r) = r.
Proof.
  induction p as [|x p IH]; [now destruct r|].
  rewrite append_cons. simpl. exact IH.
Qed.

Lemma prefix_weaken (p s x : string) :
  String.prefix p s = true -> String.prefix p (s ++ x) = true.
Proof.
  intros H. rewrite (prefix_split _ _ H), append_assoc. apply prefix_append.
Qed.

(** A string that starts a concatenation either starts its first part or
    extends over it. *)
Lemma prefix_append_cases (a b c : string) :
  String.prefix a (b ++ c) = true ->
  String.prefix a b = true \/ String.prefix b a = true.
Proof.
  revert b. induction a as [|x a IH]; intros b H; [left; now destruct b|].
  destruct b as [|y b]; [now right|].
  rewrite append_cons in H.
  apply prefix_cons in H as [-> H].
  destruct (IH _ H); [left | right]; apply prefix_cons; auto.
Qed.

Lemma has_byte_append (c : ascii) (a b : string) :
  has_byte c (a ++ b) = has_byte c a || has_byte c b.
Proof.
  induction a as [|x a IH]; [reflexivity|].
  rewrite append_cons. simpl. now rewrite IH, orb_assoc.
Qed.

(** A string without the byte [c] that starts [t ++ c :: q] lies within [t]. *)
Lemma prefix_before_byte (c : ascii) (ds t q : string) :
  has_byte c ds = false ->
  String.prefix ds (t ++ String c q) = true ->
  String.prefix ds t = true.
Proof.
  revert t. induction ds as [|d ds IH]; intros t Hc H; [now destruct t|].
  simpl in Hc. apply orb_false_iff in Hc as [Hd Hc].
  destruct t as [|y t].
  - rewrite append_nil_l in H. apply prefix_cons in H as [-> _].
    now rewrite Ascii.eqb_refl in Hd.
  - rewrite append_cons in H. apply prefix_cons in H as [-> H].
    apply prefix_cons. eauto.
Qed.

(** ** Equations of [ReplaceAll] for a non-empty [old] *)

Lemma replace_scan_skip (old new : string) (k : nat) (s : string) :
  replace_scan old new k s = replace_scan old new 0 (drop k s).
Proof.
  revert k. induction s as [|c t IH]; intros [|k]; try reflexivity.
  simpl. apply IH.
Qed.

Section ReplaceAllFacts.

(** The text searched for starts with the byte [c0]. *)
Variables (c0 : ascii) (ds new : string).

Local Abbreviation old := (String c0 ds).

Lemma ReplaceAll_nil :
  ReplaceAll "" old new = "".
Proof. reflexivity. Qed.

Lemma ReplaceAll_match (r : string) :
  ReplaceAll (String c0 ds ++ r) old new
  = new ++ ReplaceAll r old new.
Proof.
  unfold ReplaceAll. rewrite append_cons.
  cbn [replace_scan]. rewrite <- append_cons, prefix_append.
  rewrite replace_scan_skip. cbn [String.length Nat.pred].
  now rewrite drop_append.
Qed.

Lemma ReplaceAll_copy (c : ascii) (t : string) :
  String.prefix old (String c t) = false ->
  ReplaceAll (String c t) old new
  = String c (ReplaceAll t old new).
Proof. intros H. unfold ReplaceAll. cbn [replace_scan]. now rewrite H. Qed.

(** Bytes before the first byte of [old] are copied unchanged. *)
Lemma ReplaceAll_clean_prefix (p q : string) :
  has_byte c0 p = false ->
  ReplaceAll (p ++ q) old new = p ++ ReplaceAll q old new.
Proof.
  induction p as [|x p IH]; intros Hp; [reflexivity|].
  simpl in Hp. apply orb_false_iff in Hp as [Hx Hp].
  rewrite !append_cons, ReplaceAll_copy; [now rewrite IH|].
  refute_prefix E.
  apply prefix_cons in E as [-> _]. now rewrite Ascii.eqb_refl in Hx.
Qed.

Lemma ReplaceAll_absent_byte (s : string) :
  has_byte c0 s = false -> ReplaceAll s old new = s.
Proof.
  intros H. rewrite <- (append_nil_r s) at 1.
  rewrite ReplaceAll_clean_prefix by exact H.
  now rewrite ReplaceAll_nil, append_nil_r.
Qed.

(** When the first byte of [old] occurs nowhere else in [old], no match
    extends across a later occurrence of that byte: the text before it and
    the text from it on are rewritten independently. *)
Lemma ReplaceAll_split_at_byte (pre q : string) :
  has_byte c0 ds = false ->
  ReplaceAll (pre ++ String c0 q) old new
  = ReplaceAll pre old new ++ ReplaceAll (String c0 q) old new.
Proof.
  intros Hds.
  remember (String.length pre) as n eqn:Hn.
  revert pre Hn. induction n as [n IH] using lt_wf_ind. intros pre Hn.
  destruct pre as [|c t]; [reflexivity|].
  destruct (String.prefix old (String c t)) eqn:E.
  - apply prefix_split in E. rewrite E.
    rewrite append_assoc, !ReplaceAll_match, append_assoc. f_equal.
    apply (IH (String.length (drop (String.length old) (String c t)))); [|reflexivity].
    subst n. rewrite E at 2. rewrite length_append. simpl. lia.
  - rewrite append_cons.
    rewrite (ReplaceAll_copy c (t ++ String c0 q)).
    + rewrite (ReplaceAll_copy c t E), append_cons. f_equal.
      apply (IH (String.length t)); [subst n; simpl; lia | reflexivity].
    + refute_prefix E'.
      apply prefix_cons in E' as [-> E'].
      apply prefix_before_byte in E'; [|exact Hds].
      assert (String.prefix (String c ds) (String c t) = true) by (apply prefix_cons; auto).
      congruence.
Qed.

(** Without an occurrence of [old], nothing changes. *)
Lemma ReplaceAll_no_occurrence (s : string) :
  (forall p q, s <> p ++ String c0 ds ++ q) ->
  ReplaceAll s old new = s.
Proof.
  induction s as [|c t IH]; intros H; [reflexivity|].
  rewrite ReplaceAll_copy.
  - f_equal. apply IH. intros p q ->. apply (H (String c p) q). reflexivity.
  - refute_prefix E.
    apply prefix_split in E. apply (H "" (drop (String.length old) (String c t))).
    exact E.
Qed.

Lemma prefix_length (p s : string) :
  String.prefix p s = true -> (String.length p <= String.length s)%nat.
Proof.
  intros H. apply prefix_split in H. rewrite H, length_append. lia.
Qed.

(** The leftmost occurrence of [old] is replaced, and the scan goes on
    behind it. *)
Lemma ReplaceAll_first_occurrence (p q : string) :
  (forall a b, p ++ String c0 ds = a ++ String c0 ds ++ b -> a = p) ->
  ReplaceAll (p ++ String c0 ds ++ q) old new
  = p ++ new ++ ReplaceAll q old new.
Proof.
  induction p as [|x p IH]; intros H.
  - rewrite !append_nil_l. apply ReplaceAll_match.
  - rewrite 2!(append_cons x), ReplaceAll_copy.
    + f_equal. apply IH. intros a b E.
      specialize (H (String x a) b). rewrite !append_cons in H.
      rewrite E in H. specialize (H eq_refl). congruence.
    + refute_prefix E.
      rewrite <- append_cons, <- append_assoc in E.
      apply prefix_append_cases in E as [E|E].
      * apply prefix_split in E. specialize (H "" _ E). discriminate.
      * apply prefix_length in E. rewrite length_append in E. simpl in E. lia.
Qed.

End ReplaceAllFacts.

End StringFacts.

(** ** Decimal rendering *)

Section DecimalFacts.

Lemma digits_no_dollar (d : uint) :
  has_byte "$" (NilEmpty.string_of_uint d) = false.
Proof. induction d; simpl; auto. Qed.

Lemma digits_prefix (a d : uint) :
  String.prefix (NilEmpty.string_of_uint a) (NilEmpty.string_of_uint d) = true ->
  exists b, d = uapp a b.
Proof.
  revert d. induction a as [|a IH|a IH|a IH|a IH|a IH|a IH|a IH|a IH|a IH|a IH];
    intros d H; [now exists d | ..];
    (destruct d; cbn [NilEmpty.string_of_uint] in H; [discriminate H | ..];
     apply prefix_cons in H as [Hc H]; try discriminate Hc;
     destruct (IH _ H) as [b ->]; now exists b).
Qed.

Lemma of_uint_acc_uapp (a b : uint) (acc : positive) :
  Pos.of_uint_acc (uapp a b) acc = Pos.of_uint_acc b (Pos.of_uint_acc a acc).
Proof. revert acc. induction a; intros acc; simpl; auto. Qed.

Lemma of_uint_acc_ge (b : uint) (acc : positive) :
  (acc <= Pos.of_uint_acc b acc)%positive.
Proof.
  revert acc. induction b as [|b IH|b IH|b IH|b IH|b IH|b IH|b IH|b IH|b IH|b IH];
    intros acc; simpl; [lia | ..];
    (etransitivity; [|apply IH]); lia.
Qed.

Lemma of_uint_uapp_ge (a b : uint) :
  (Pos.of_uint a <= Pos.of_uint (uapp a b))%N.
Proof.
  induction a; simpl;
    [apply N.le_0_l | exact IHa | rewrite of_uint_acc_uapp; exact (of_uint_acc_ge b _) ..].
Qed.

Lemma itoa_positive (p : positive) :
  itoa (Z.pos p) = NilEmpty.string_of_uint (Pos.to_uint p).
Proof.
  unfold itoa. simpl. unfold NilZero.string_of_uint.
  pose proof (Unsigned.to_uint_nonnil p).
  now destruct (Pos.to_uint p).
Qed.

(** A decimal numeral that starts another one denotes a number that is not
    larger. *)
Lemma itoa_prefix_le (k j : Z) :
  0 < k -> 0 < j -> String.prefix (itoa k) (itoa j) = true -> k <= j.
Proof.
  intros Hk Hj H. destruct k as [|k|k]; try lia. destruct j as [|j|j]; try lia.
  rewrite !itoa_positive in H. apply digits_prefix in H as [b Hb].
  pose proof (of_uint_uapp_ge (Pos.to_uint k) b) as Hle.
  rewrite <- Hb, !Unsigned.of_to in Hle. lia.
Qed.

Lemma itoa_no_dollar (k : Z) : 0 < k -> has_byte "$" (itoa k) = false.
Proof.
  intros Hk. destruct k as [|k|k]; try lia.
  rewrite itoa_positive. apply digits_no_dollar.
Qed.

End DecimalFacts.

Section SubstitutionFacts.

Lemma placeholder_cons (i : Z) : placeholder i = String "$" (itoa (i + 1)).
Proof. reflexivity. Qed.

Lemma spec_passes_app (n : nat) (args more : list string) (template : string) :
  (n <= length args)%nat ->
  spec_passes n (args ++ more) template = spec_passes n args template.
Proof.
  induction n as [|n IH]; intros Hn; [reflexivity|].
  cbn [spec_passes]. rewrite IH by lia.
  rewrite lookup_app_l by lia. reflexivity.
Qed.

Lemma substitute_from_spec (done rest : list string) (template : string) :
  substitute_from (Z.of_nat (length done)) rest (spec_substitute template done)
  = spec_substitute template (done ++ rest).
Proof.
  revert done. induction rest as [|arg rest IH]; intros done.
  - now rewrite app_nil_r.
  - cbn [substitute_from].
    replace (done ++ arg :: rest)%list with ((done ++ [arg]) ++ rest)%list
      by now rewrite <- app_assoc.
    rewrite <- IH. rewrite length_app. cbn [length].
    replace (Z.of_nat (length done + 1)) with (Z.of_nat (length done) + 1) by lia.
    f_equal. unfold spec_substitute at 2.
    rewrite length_app. cbn [length]. rewrite Nat.add_1_r. cbn [spec_passes].
    rewrite spec_passes_app by lia.
    rewrite list_lookup_middle by reflexivity.
    unfold placeholder, spec_substitute. do 3 f_equal. lia.
Qed.

(** A string without '$' passes through the loop unchanged. *)
Lemma substitute_from_clean (i : Z) (args : list string) (s : string) :
  has_byte "$" s = false -> substitute_from i args s = s.
Proof.
  revert i s. induction args as [|arg rest IH]; intros i s H; [reflexivity|].
  cbn [substitute_from]. rewrite placeholder_cons, ReplaceAll_absent_byte by exact H.
  now apply IH.
Qed.

(** One pass keeps the text "$k" when its own placeholder "$j" neither
    starts nor extends "$k". *)
Lemma pass_keeps_placeholder (j k : Z) (new pre post : string) :
  0 < j < k ->
  String.prefix (itoa j) (itoa k) = false ->
  ReplaceAll (pre ++ "$" ++ itoa k ++ post) ("$" ++ itoa j) new
  = ReplaceAll pre ("$" ++ itoa j) new ++ "$" ++ itoa k
    ++ ReplaceAll post ("$" ++ itoa j) new.
Proof.
  intros Hjk Hpre.
  change ("$" ++ itoa j) with (String "$" (itoa j)).
  change ("$" ++ itoa k ++ post) with (String "$" (itoa k ++ post)).
  rewrite ReplaceAll_split_at_byte by (apply itoa_no_dollar; lia).
  f_equal. rewrite ReplaceAll_copy.
  - change ("$" ++ ?x) with (String "$" x). f_equal.
    apply ReplaceAll_clean_prefix, itoa_no_dollar. lia.
  - refute_prefix E.
    apply prefix_cons in E as [_ E].
    apply prefix_append_cases in E as [E|E]; [congruence|].
    apply itoa_prefix_le in E; lia.
Qed.

Lemma substitute_from_keeps_placeholder (k i : Z) (args : list string)
    (pre post : string) :
  0 <= i ->
  i + Z.of_nat (length args) < k ->
  (forall j, i < j <= i + Z.of_nat (length args) ->
             String.prefix (itoa j) (itoa k) = false) ->
  substitute_from i args (pre ++ "$" ++ itoa k ++ post)
  = substitute_from i args pre ++ "$" ++ itoa k ++ substitute_from i args post.
Proof.
  revert i pre post. induction args as [|arg rest IH]; intros i pre post Hi Hk Hj;
    [reflexivity|].
  cbn [substitute_from length] in *. unfold placeholder.
  rewrite pass_keeps_placeholder by (try apply Hj; lia).
  apply IH; [lia | lia |]. intros j Hr. apply Hj. lia.
Qed.

(** The pass for "$1" on a template that holds "$10". *)
Lemma pass1_rewrites_10 (a pre post : string) :
  ReplaceAll (pre ++ "$10" ++ post) "$1" a
  = ReplaceAll pre "$1" a ++ a ++ "0" ++ ReplaceAll post "$1" a.
Proof.
  change ("$10" ++ post) with (String "$" ("10" ++ post)).
  rewrite ReplaceAll_split_at_byte by reflexivity.
  (* the scan of "$10" ++ post matches "$1", skips it and copies '0' *)
  reflexivity.
Qed.

End SubstitutionFacts.

(** ** Tokenization *)

Section FieldsFacts.

Lemma range_from_index_nonneg (s : string) (i : Z) (skip : nat) :
  0 <= i -> Forall (fun ir => 0 <= fst ir) (range_from i skip s).
Proof.
  revert i skip. induction s as [|c t IH]; intros i skip Hi; [constructor|].
  cbn [range_from]. destruct skip as [|k].
  - destruct (DecodeRuneInString (String c t)) as [r w].
    constructor; [exact Hi | apply IH; lia].
  - apply IH. lia.
Qed.

(** The loop of [FieldsFunc] ends between fields and with no span recorded
    exactly when it started so and met separators only. *)
Lemma fields_loop_nothing (f : Z -> bool) (rs : list (Z * Z))
    (start : Z) (spans : list (Z * Z)) :
  Forall (fun ir => 0 <= fst ir) rs ->
  (fst (fields_loop f rs start spans) < 0 /\ snd (fields_loop f rs start spans) = [])
  <-> (start < 0 /\ spans = [] /\ Forall (fun ir => f (snd ir) = true) rs).
Proof.
  intros Hidx. revert start spans.
  induction Hidx as [|[e r] rs He Hidx IH]; intros start spans.
  - cbn [fields_loop fst snd]. split; [intros []; auto | intros (? & ? & _); auto].
  - cbn [fields_loop fst snd] in *. destruct (f r) eqn:Hf.
    + destruct (Z.leb_spec 0 start).
      * rewrite IH. split.
        -- intros (_ & Hnil & _). now destruct spans.
        -- intros (? & _). lia.
      * rewrite IH. split.
        -- intros (? & ? & ?). repeat split; auto.
        -- intros (? & ? & Hall). inversion Hall; subst. auto.
    + destruct (Z.ltb_spec start 0).
      * rewrite IH. split.
        -- intros (? & _). lia.
        -- intros (_ & _ & Hall). inversion Hall; subst. cbn in *. congruence.
      * rewrite IH. split.
        -- intros (? & _). lia.
        -- intros (? & _). lia.
Qed.

(** No field comes out exactly when every rune is white space. *)
Lemma Fields_nil_iff (s : string) :
  Fields s = [] <-> Forall (fun ir => IsSpace (snd ir) = true) (range_string s).
Proof.
  unfold Fields, FieldsFunc, field_spans.
  pose proof (fields_loop_nothing IsSpace (range_string s) (-1) []
                (range_from_index_nonneg s 0 0 (Z.le_refl 0))) as H.
  destruct (fields_loop IsSpace (range_string s) (-1) []) as [start spans].
  cbn [fst snd] in H. split.
  - intros Hnil. apply fmap_nil_inv in Hnil. apply H.
    destruct (Z.leb_spec 0 start); [now destruct spans | split; [lia | exact Hnil]].
  - intros Hall. destruct H as [_ H].
    destruct H as [Hs ->]; [repeat split; auto; lia|].
    destruct (Z.leb_spec 0 start); [lia | reflexivity].
Qed.

End FieldsFacts.

(* ===================================================================== *)
(** * Sanity checks of the library model                                  *)
(* ===================================================================== *)

Example itoa_10 : itoa 10 = "10".
Proof. reflexivity. Qed.

Example Fields_ascii : Fields "  echo  a b " = ["echo"; "a"; "b"].
Proof. vm_compute. reflexivity. Qed.

(** U+00A0 (bytes C2 A0) separates fields; a stray lead byte does not. *)
Example Fields_no_break_space :
  Fields ("a" ++ String (ascii_of_nat 194) (String (ascii_of_nat 160) "b"))
  = ["a"; "b"]
  /\ Fields ("a" ++ String (ascii_of_nat 194) " b")
     = ["a" ++ String (ascii_of_nat 194) ""; "b"].
Proof. split; vm_compute; reflexivity. Qed.

Example ReplaceAll_twice : ReplaceAll "a$1b$1$" "$1" "xy" = "axybxy$".
Proof. vm_compute. reflexivity. Qed.

Example ReplaceAll_empty_old : ReplaceAll "ab" "" "-" = "-a-b-".
Proof. vm_compute. reflexivity. Qed.

(* ===================================================================== *)
(** * Facts about the handlers                                            *)
(* ===================================================================== *)

Section HandlerFacts.

Lemma Put_storable (b : Bucket) (key value : string) :
  storable key value = true -> Put b key value = inr (<[key := value]> b).
Proof.
  unfold storable. rewrite !andb_true_iff, Z.ltb_lt, !Z.leb_le.
  intros [[Hk1 Hk2] Hv]. unfold Put.
  destruct (Z.eqb_spec (len key) 0); [lia|].
  destruct (Z.ltb_spec MaxKeySize (len key)); [lia|].
  destruct (Z.ltb_spec MaxValueSize (len value)); [lia|]. reflexivity.
Qed.

Lemma Put_inr (b b' : Bucket) (key value : string) :
  Put b key value = inr b' -> b' = <[key := value]> b.
Proof.
  unfold Put. repeat (destruct (_ : bool); [discriminate|]). congruence.
Qed.

Lemma runCommand_present (w : World) (b : Bucket) (alias template : string)
    (args : list string) :
  Get b alias = Some template ->
  runCommand w b alias args =
    match Fields (substitute template args) with
    | [] => returned [Print ("Empty command" ++ nl)] b
    | name :: argv =>
        match run_child w name argv with
        | Some err => returned [Exec name argv;
                                Print ("Error executing command: " ++ err ++ nl)] b
        | None => returned [Exec name argv] b
        end
    end.
Proof. intros H. unfold runCommand, View. now rewrite H. Qed.

Lemma runCommand_absent (w : World) (b : Bucket) (alias : string) (args : list string) :
  Get b alias = None ->
  runCommand w b alias args
  = returned [Print ("Error retrieving command: alias not found" ++ nl)] b.
Proof. intros H. unfold runCommand, View. now rewrite H. Qed.

(** [runCommand] returns normally and never writes to the bucket. *)
Lemma runCommand_returns (w : World) (b : Bucket) (alias : string) (args : list string) :
  bucket (runCommand w b alias args) = b
  /\ completion (runCommand w b alias args) = Returned.
Proof.
  unfold runCommand, View. destruct (Get b alias); [|now split].
  destruct (Fields _); [now split|]. now destruct (run_child w _ _).
Qed.

(** The words after "run" reach [runCommand] when cobra accepts them. *)
Lemma main_run (w : World) (disk : Bucket) (alias : string) (args : list string) :
  open_fault w = None -> init_fault w = None ->
  forallb plain (alias :: args) = true ->
  main w disk ("run" :: alias :: args)
  = Some {| trace := events (runCommand w disk alias args);
            store := disk; exit_code := 0 |}.
Proof.
  intros Ho Hi Hp. unfold main, route. rewrite Ho, Hi.
  change (forallb plain ("run" :: alias :: args)) with (forallb plain (alias :: args)).
  rewrite Hp. cbn. destruct (runCommand_returns w disk alias args) as [-> ->]. reflexivity.
Qed.

End HandlerFacts.

Section SubstitutionClaims.

(** Every occurrence of a placeholder is replaced by its pass, whatever
    stands around it. *)
Lemma pass_replaces_every_occurrence (i : Z) (arg pre post : string) :
  0 <= i ->
  ReplaceAll (pre ++ placeholder i ++ post) (placeholder i) arg
  = ReplaceAll pre (placeholder i) arg ++ arg
    ++ ReplaceAll post (placeholder i) arg.
Proof.
  intros Hi. rewrite placeholder_cons, append_cons.
  rewrite ReplaceAll_split_at_byte by (apply itoa_no_dollar; lia).
  f_equal. rewrite <- append_cons. apply ReplaceAll_match.
Qed.

(** A template that is just the placeholder becomes the argument. *)
Lemma placeholder_self (i : Z) (arg : string) :
  ReplaceAll (placeholder i) (placeholder i) arg = arg.
Proof.
  rewrite placeholder_cons.
  rewrite <- (append_nil_r (String "$" (itoa (i + 1)))) at 1.
  now rewrite ReplaceAll_match, ReplaceAll_nil, append_nil_r.
Qed.

Lemma substitute_spec (template : string) (args : list string) :
  substitute template args = spec_substitute template args.
Proof. exact (substitute_from_spec [] args template). Qed.

End SubstitutionClaims.

(** C1: the substitution runs through the indices 1, 2, ... of the
    arguments in ascending order and replaces, in the current string, every
    occurrence of "$i" by [args[i-1]], whatever surrounds it; "echo $1 $2"
    with ["a"; "b"] starts the program "echo" with arguments ["a"; "b"]; a
    "$2" brought in by the first argument is replaced by the second pass,
    a "$1" brought in by the second argument stays. *)
Theorem C1_substitution_ascending_passes :
  (forall template args, substitute template args = spec_substitute template args)
  /\ (forall i arg pre post, 0 <= i ->
        ReplaceAll (pre ++ placeholder i ++ post) (placeholder i) arg
        = ReplaceAll pre (placeholder i) arg ++ arg
          ++ ReplaceAll post (placeholder i) arg)
  /\ (forall w b alias args template name argv,
        Get b alias = Some template ->
        Fields (spec_substitute template args) = name :: argv ->
        exists report, events (runCommand w b alias args) = Exec name argv :: report)
  /\ (forall w b alias,
        Get b alias = Some "echo $1 $2" ->
        run_child w "echo" ["a"; "b"] = None ->
        runCommand w b alias ["a"; "b"] = returned [Exec "echo" ["a"; "b"]] b)
  /\ (forall i u v next rest, 0 <= i ->
        substitute_from i ((u ++ placeholder (i + 1) ++ v) :: next :: rest)
          (placeholder i)
        = substitute_from (i + 2) rest
            (ReplaceAll u (placeholder (i + 1)) next ++ next
             ++ ReplaceAll v (placeholder (i + 1)) next))
  /\ (forall x, substitute "$1" ["$2"; x] = x)
  /\ (forall x, substitute "$2" [x; "$1"] = "$1").
Proof.
  split; [exact substitute_spec|].
  split; [exact pass_replaces_every_occurrence|].
  split.
  { intros w b alias args template name argv Hget Hf.
    rewrite (runCommand_present _ _ _ _ _ Hget), substitute_spec, Hf.
    destruct (run_child w name argv); eexists; reflexivity. }
  split.
  { intros w b alias Hget Hrun.
    rewrite (runCommand_present _ _ _ _ _ Hget).
    change (Fields (substitute "echo $1 $2" ["a"; "b"])) with ["echo"; "a"; "b"].
    cbv iota beta. now rewrite Hrun. }
  split.
  { intros i u v next rest Hi. cbn [substitute_from].
    replace (i + 1 + 1) with (i + 2) by lia. f_equal.
    rewrite (placeholder_self i).
    apply pass_replaces_every_occurrence. lia. }
  split.
  - intros x. unfold substitute. cbn [substitute_from].
    change (ReplaceAll "$1" (placeholder 0) "$2") with ("$2" ++ "").
    change (placeholder (0 + 1)) with (String "$" "2").
    now rewrite ReplaceAll_match, ReplaceAll_nil, append_nil_r.
  - intros x. unfold substitute. cbn [substitute_from].
    change (ReplaceAll "$2" (placeholder 0) x) with "$2".
    change (placeholder (0 + 1)) with (String "$" "2").
    change "$2" with ("$2" ++ "") at 1.
    rewrite ReplaceAll_match. reflexivity.
Qed.

Lemma C1_witness :
  exists report,
    events (runCommand quiet_world {[ "greet" := "echo $1 $2" ]} "greet" ["a"; "b"])
    = Exec "echo" ["a"; "b"] :: report.
Proof.
  apply (proj1 (proj2 (proj2 C1_substitution_ascending_passes))
           quiet_world {[ "greet" := "echo $1 $2" ]} "greet" ["a"; "b"] "echo $1 $2").
  - reflexivity.
  - vm_compute. reflexivity.
Defined.

(** C2: when the alias is absent from the store, a run prints the
    "alias not found" report and nothing else happens: the outcome is the
    same for every argument list and every child-process behaviour (no
    substitution, no tokenization, no process), the store is untouched and
    the process ends with exit code 0. *)
Theorem C2_unknown_alias_reported :
  (forall w b alias args,
      Get b alias = None ->
      runCommand w b alias args
      = returned [Print ("Error retrieving command: alias not found" ++ nl)] b)
  /\ (forall w disk alias args,
        open_fault w = None -> init_fault w = None ->
        forallb plain (alias :: args) = true ->
        Get disk alias = None ->
        main w disk ("run" :: alias :: args)
        = Some {| trace := [Print ("Error retrieving command: alias not found" ++ nl)];
                  store := disk; exit_code := 0 |}).
Proof.
  split; [exact runCommand_absent|].
  intros w disk alias args Ho Hi Hp Hget.
  rewrite main_run by assumption. now rewrite runCommand_absent.
Qed.

Lemma C2_witness :
  main quiet_world {[ "greet" := "echo hi" ]} ["run"; "nope"; "x"; "$1"]
  = Some {| trace := [Print ("Error retrieving command: alias not found" ++ nl)];
            store := {[ "greet" := "echo hi" ]}; exit_code := 0 |}.
Proof.
  apply (proj2 C2_unknown_alias_reported quiet_world); reflexivity.
Defined.

(** C3: when the substituted template yields no field, which is the case
    exactly when it consists of white space only (the empty string
    included), a run prints "Empty command" and returns: no process is
    started, the store is untouched, the exit code is 0. *)
Theorem C3_empty_command_reported :
  (forall w b alias args template,
      Get b alias = Some template ->
      Fields (substitute template args) = [] ->
      runCommand w b alias args = returned [Print ("Empty command" ++ nl)] b)
  /\ (forall s, Fields s = []
                <-> Forall (fun ir => IsSpace (snd ir) = true) (range_string s))
  /\ Fields "" = []
  /\ (forall w disk alias args template,
        open_fault w = None -> init_fault w = None ->
        forallb plain (alias :: args) = true ->
        Get disk alias = Some template ->
        Fields (substitute template args) = [] ->
        main w disk ("run" :: alias :: args)
        = Some {| trace := [Print ("Empty command" ++ nl)];
                  store := disk; exit_code := 0 |}).
Proof.
  assert (Hrun : forall w b alias args template,
             Get b alias = Some template ->
             Fields (substitute template args) = [] ->
             runCommand w b alias args = returned [Print ("Empty command" ++ nl)] b).
  { intros w b alias args template Hget Hf.
    now rewrite (runCommand_present _ _ _ _ _ Hget), Hf. }
  split; [exact Hrun|].
  split; [exact Fields_nil_iff|].
  split; [reflexivity|].
  intros w disk alias args template Ho Hi Hp Hget Hf.
  rewrite main_run by assumption. now rewrite (Hrun _ _ _ _ _ Hget Hf).
Qed.

Lemma C3_witness :
  main quiet_world {[ "blank" := " $1 $1 " ]} ["run"; "blank"; " "]
  = Some {| trace := [Print ("Empty command" ++ nl)];
            store := {[ "blank" := " $1 $1 " ]}; exit_code := 0 |}.
Proof.
  apply (proj2 (proj2 (proj2 C3_empty_command_reported)) quiet_world _ _ _ " $1 $1 ").
  - reflexivity.
  - reflexivity.
  - reflexivity.
  - reflexivity.
  - vm_compute. reflexivity.
Defined.

(** C9 (every placeholder without an argument stays untouched) fails:
    with one argument the placeholder "$10" has no argument of its own, yet
    the pass for "$1" rewrites it. *)
Lemma C9_counterexample :
  substitute "echo $10" ["a"] = "echo a0"
  /\ ~ (forall k args pre post,
          Z.of_nat (length args) < k ->
          substitute (pre ++ "$" ++ itoa k ++ post) args
          = substitute pre args ++ "$" ++ itoa k ++ substitute post args).
Proof.
  split; [reflexivity|].
  intros H. specialize (H 10 ["a"] "echo " "" eq_refl). discriminate H.
Qed.

(** C9 (amended): a placeholder "$k" whose index exceeds the number of
    arguments stays in the text as it is, provided that no placeholder
    "$j" of a supplied argument is a prefix of it; what stands before and
    behind it is substituted as usual.  "echo $1 $2" with ["a"] becomes
    "echo a $2", is split into "echo", "a", "$2", and the program is
    started without any error report. *)
Theorem C9_unmatched_placeholder_kept :
  (forall k args pre post,
      Z.of_nat (length args) < k ->
      (forall j, 0 < j <= Z.of_nat (length args) ->
                 String.prefix (itoa j) (itoa k) = false) ->
      substitute (pre ++ "$" ++ itoa k ++ post) args
      = substitute pre args ++ "$" ++ itoa k ++ substitute post args)
  /\ substitute "echo $1 $2" ["a"] = "echo a $2"
  /\ Fields "echo a $2" = ["echo"; "a"; "$2"]
  /\ (forall w b alias,
        Get b alias = Some "echo $1 $2" ->
        run_child w "echo" ["a"; "$2"] = None ->
        runCommand w b alias ["a"] = returned [Exec "echo" ["a"; "$2"]] b).
Proof.
  split.
  { intros k args pre post Hk Hj. unfold substitute.
    apply substitute_from_keeps_placeholder; [lia | lia |].
    intros j Hr. apply Hj. lia. }
  split; [reflexivity|].
  split; [reflexivity|].
  intros w b alias Hget Hrun.
  rewrite (runCommand_present _ _ _ _ _ Hget).
  change (Fields (substitute "echo $1 $2" ["a"])) with ["echo"; "a"; "$2"].
  cbv iota beta. now rewrite Hrun.
Qed.

Lemma C9_witness :
  substitute ("echo $1 " ++ "$" ++ itoa 2 ++ " $1") ["a"]
  = substitute "echo $1 " ["a"] ++ "$" ++ itoa 2 ++ substitute " $1" ["a"].
Proof.
  apply (proj1 C9_unmatched_placeholder_kept 2 ["a"]).
  - reflexivity.
  - intros j Hj. assert (j = 1) as -> by (cbn in Hj; lia). reflexivity.
Defined.

(** C10 (the tenth argument never replaces "$10") fails: when the first
    argument is "$1" itself, the pass for "$1" leaves "$10" as it is and
    the tenth pass puts the tenth argument in its place. *)
Lemma C10_counterexample :
  ReplaceAll "$10" (placeholder 0) "$1" = "$10"
  /\ substitute "$10" ["$1"; "b"; "c"; "d"; "e"; "f"; "g"; "h"; "i"; "j"] = "j".
Proof. split; vm_compute; reflexivity. Qed.

(** C10 (amended): on a template that holds "$10", the pass for "$1"
    turns every such occurrence into the first argument followed by '0'
    before any later pass runs, so the later passes, the tenth included,
    only see the rewritten text; when neither the first argument nor the
    text around the occurrence contains '$', the result is the first
    argument followed by '0', whatever the other arguments are. *)
Theorem C10_prefix_collision :
  (forall pre post a rest,
      substitute (pre ++ "$10" ++ post) (a :: rest)
      = substitute_from 1 rest
          (ReplaceAll pre "$1" a ++ a ++ "0" ++ ReplaceAll post "$1" a))
  /\ (forall pre post a rest,
        has_byte "$" pre = false -> has_byte "$" post = false ->
        has_byte "$" a = false ->
        substitute (pre ++ "$10" ++ post) (a :: rest) = pre ++ a ++ "0" ++ post)
  /\ substitute "echo $10" ["a"; "b"; "c"; "d"; "e"; "f"; "g"; "h"; "i"; "j"]
     = "echo a0".
Proof.
  assert (Hpass : forall pre post a rest,
             substitute (pre ++ "$10" ++ post) (a :: rest)
             = substitute_from 1 rest
                 (ReplaceAll pre "$1" a ++ a ++ "0" ++ ReplaceAll post "$1" a)).
  { intros pre post a rest. unfold substitute. cbn [substitute_from].
    change (placeholder 0) with "$1". now rewrite pass1_rewrites_10. }
  split; [exact Hpass|]. split; [|vm_compute; reflexivity].
  intros pre post a rest Hpre Hpost Ha. rewrite Hpass.
  rewrite !(ReplaceAll_absent_byte "$" "1") by assumption.
  apply substitute_from_clean.
  rewrite !has_byte_append, Hpre, Ha, Hpost. reflexivity.
Qed.

Lemma C10_witness :
  substitute ("echo " ++ "$10" ++ " now") ["a"; "b"; "c"; "d"; "e"; "f"; "g"; "h"; "i"; "j"]
  = "echo " ++ "a" ++ "0" ++ " now".
Proof.
  apply (proj1 (proj2 C10_prefix_collision)); reflexivity.
Defined.

Section StoreFacts.

Lemma saveCmd_stored (w : World) (b : Bucket) (alias : string) (rest : list string) :
  commit_fault w = None ->
  storable alias (Join rest " ") = true ->
  saveCmd w b (alias :: rest)
  = returned [Print ("Command saved with alias: " ++ alias ++ nl)]
      (<[alias := Join rest " "]> b).
Proof.
  intros Hc Hs. unfold saveCmd, Update. now rewrite (Put_storable _ _ _ Hs), Hc.
Qed.

(** The success line is printed only after the entry has been written. *)
Lemma saveCmd_success_inv (w : World) (b : Bucket) (alias : string) (rest : list string) :
  events (saveCmd w b (alias :: rest))
  = [Print ("Command saved with alias: " ++ alias ++ nl)] ->
  bucket (saveCmd w b (alias :: rest)) = <[alias := Join rest " "]> b.
Proof.
  unfold saveCmd, Update.
  destruct (Put b alias (Join rest " ")) as [e|b'] eqn:HP.
  - intros H. discriminate H.
  - destruct (commit_fault w); [intros H; discriminate H|].
    intros _. apply (Put_inr _ _ _ _ HP).
Qed.

(** Whether a save succeeds, and what it prints, does not depend on what
    the bucket holds. *)
Lemma saveCmd_events_any_bucket (w : World) (b b' : Bucket) (args : list string) :
  events (saveCmd w b args) = events (saveCmd w b' args).
Proof.
  destruct args as [|alias rest]; [reflexivity|].
  unfold saveCmd, Update, Put.
  repeat (destruct (_ : bool); [reflexivity|]).
  now destruct (commit_fault w).
Qed.

Lemma entries_elem_of (b : Bucket) (key value : string) :
  (key, value) ∈ entries b <-> b !! key = Some value.
Proof.
  unfold entries. rewrite merge_sort_Permutation. apply elem_of_map_to_list.
Qed.

(** [list] visits the entries in ascending key order. *)
Lemma entries_sorted (b : Bucket) :
  Sorted (fun x y => String.le (fst x) (fst y)) (entries b).
Proof.
  apply Sorted_merge_sort. intros x y. apply String.le_total.
Qed.

End StoreFacts.

(** C4: editing an alias that the store does not hold prints the
    "alias not found" report and leaves the store as it was, so that no
    entry for the alias exists afterwards; editing an alias that the store
    holds replaces its template by the new text (once the store accepts
    and commits the write). *)
Theorem C4_edit_requires_existing_alias :
  (forall w b alias rest,
      Get b alias = None ->
      editCmd w b (alias :: rest)
      = returned [Print ("Error editing command: alias not found" ++ nl)] b
      /\ Get (bucket (editCmd w b (alias :: rest))) alias = None)
  /\ (forall w b alias rest old,
        Get b alias = Some old ->
        commit_fault w = None ->
        storable alias (Join rest " ") = true ->
        editCmd w b (alias :: rest)
        = returned [Print ("Command updated for alias: " ++ alias ++ nl)]
            (<[alias := Join rest " "]> b)
        /\ Get (bucket (editCmd w b (alias :: rest))) alias = Some (Join rest " ")).
Proof.
  split.
  - intros w b alias rest Hget. unfold editCmd, Update. rewrite Hget.
    split; [reflexivity | exact Hget].
  - intros w b alias rest old Hget Hc Hs. unfold editCmd, Update.
    rewrite Hget, (Put_storable _ _ _ Hs), Hc.
    split; [reflexivity | apply lookup_insert_eq].
Qed.

Lemma C4_witness :
  editCmd quiet_world ∅ ["nope"; "echo"; "hi"]
  = returned [Print ("Error editing command: alias not found" ++ nl)] ∅
  /\ editCmd quiet_world {[ "g" := "git status" ]} ["g"; "git"; "log"]
     = returned [Print ("Command updated for alias: g" ++ nl)]
         (<["g" := "git log"]> {[ "g" := "git status" ]}).
Proof.
  split.
  - apply (proj1 C4_edit_requires_existing_alias quiet_world ∅ "nope" ["echo"; "hi"]).
    reflexivity.
  - apply (proj2 C4_edit_requires_existing_alias quiet_world
             {[ "g" := "git status" ]} "g" ["git"; "log"] "git status").
    + reflexivity.
    + reflexivity.
    + reflexivity.
Defined.

(** C5: two saves under the same alias both succeed (once the store
    accepts and commits the writes) and the second text is the one found
    afterwards; a save never fails because the alias exists already: what
    it reports is the same for every content of the store. *)
Theorem C5_last_save_wins :
  (forall w1 w2 b a xs ys,
      commit_fault w1 = None -> commit_fault w2 = None ->
      storable a (Join xs " ") = true -> storable a (Join ys " ") = true ->
      let first := saveCmd w1 b (a :: xs) in
      let second := saveCmd w2 (bucket first) (a :: ys) in
      events first = [Print ("Command saved with alias: " ++ a ++ nl)]
      /\ events second = [Print ("Command saved with alias: " ++ a ++ nl)]
      /\ Get (bucket second) a = Some (Join ys " "))
  /\ (forall w b a ys,
        events (saveCmd w b (a :: ys))
        = [Print ("Command saved with alias: " ++ a ++ nl)] ->
        Get (bucket (saveCmd w b (a :: ys))) a = Some (Join ys " "))
  /\ (forall w b b' args, events (saveCmd w b args) = events (saveCmd w b' args)).
Proof.
  split; [|split].
  - intros w1 w2 b a xs ys H1 H2 Hx Hy first second. subst first second.
    rewrite (saveCmd_stored w1) by assumption. cbn [bucket returned events].
    rewrite (saveCmd_stored w2) by assumption. cbn [bucket returned events].
    repeat split. apply lookup_insert_eq.
  - intros w b a ys H. rewrite (saveCmd_success_inv _ _ _ _ H).
    apply lookup_insert_eq.
  - exact saveCmd_events_any_bucket.
Qed.

Lemma C5_witness :
  let first := saveCmd quiet_world ∅ ["g"; "X"] in
  let second := saveCmd quiet_world (bucket first) ["g"; "Y"] in
  events first = [Print ("Command saved with alias: g" ++ nl)]
  /\ events second = [Print ("Command saved with alias: g" ++ nl)]
  /\ Get (bucket second) "g" = Some "Y".
Proof.
  apply (proj1 C5_last_save_wins quiet_world quiet_world ∅ "g" ["X"] ["Y"]);
    reflexivity.
Defined.

(** C6: after a save that reported success, the listing holds the pair of
    the alias and the saved text: the pair is among the entries that
    [list] visits and its line is among the lines that [list] prints. *)
Theorem C6_saved_alias_listed :
  forall w w' b a xs args,
    events (saveCmd w b (a :: xs))
    = [Print ("Command saved with alias: " ++ a ++ nl)] ->
    let saved := bucket (saveCmd w b (a :: xs)) in
    (a, Join xs " ") ∈ entries saved
    /\ Print (a ++ ": " ++ Join xs " " ++ nl) ∈ events (listCmd w' saved args).
Proof.
  intros w w' b a xs args H saved. subst saved.
  rewrite (saveCmd_success_inv _ _ _ _ H).
  assert (Hin : (a, Join xs " ") ∈ entries (<[a := Join xs " "]> b))
    by (apply entries_elem_of, lookup_insert_eq).
  split; [exact Hin|].
  unfold listCmd, View. cbn [events returned].
  apply (list_elem_of_fmap_2 (fun kv => Print (fst kv ++ ": " ++ snd kv ++ nl))) in Hin.
  exact Hin.
Qed.

Lemma C6_witness :
  let saved := bucket (saveCmd quiet_world ∅ ["g"; "git"; "status"]) in
  (("g", "git status") : string * string) ∈ entries saved
  /\ Print ("g: git status" ++ nl) ∈ events (listCmd quiet_world saved []).
Proof.
  apply (C6_saved_alias_listed quiet_world quiet_world ∅ "g" ["git"; "status"] []).
  reflexivity.
Defined.

Section MainFacts.

(** What the [Run] function of the root command does with a word list is
    what the one of [run] does with it. *)
Lemma rootCmd_as_runCmd (w : World) (b : Bucket) (alias : string) (rest : list string) :
  rootCmd w b (alias :: rest) = runCmd w b (alias :: rest).
Proof. reflexivity. Qed.

(** cobra hands a handler only argument lists that it can index. *)
Lemma routed_handler_returns (w : World) (b : Bucket) (argv : list string) (r : Route) :
  route argv = Some (inr r) -> completion (dispatch w b r) = Returned.
Proof.
  unfold route. destruct (forallb plain argv); [|discriminate].
  destruct argv as [|name rest]; cbn [negb].
  - intros [= <-]. reflexivity.
  - destruct (cobra_builtin name); [discriminate|].
    destruct (String.eqb name "save").
    { unfold validated, MinimumNArgs.
      destruct rest as [|a rest]; [discriminate|].
      destruct (_ <? _)%nat; [discriminate|]. intros [= <-].
      cbn [dispatch]. unfold saveCmd. now destruct (Update _ _ _) as [[e|] b']. }
    destruct (String.eqb name "list").
    { intros [= <-]. reflexivity. }
    destruct (String.eqb name "edit").
    { unfold validated, MinimumNArgs.
      destruct rest as [|a rest]; [discriminate|].
      destruct (_ <? _)%nat; [discriminate|]. intros [= <-].
      cbn [dispatch]. unfold editCmd. now destruct (Update _ _ _) as [[e|] b']. }
    destruct (String.eqb name "run"); [|discriminate].
    unfold validated, MinimumNArgs.
    destruct rest as [|a rest]; [discriminate|].
    destruct (_ <? _)%nat; [discriminate|]. intros [= <-].
    apply runCommand_returns.
Qed.

(** A first word that names no command is an error of the command line. *)
Lemma bare_word_unknown_command (w : World) (disk : Bucket) (name : string)
    (rest : list string) :
  open_fault w = None -> init_fault w = None ->
  forallb plain (name :: rest) = true ->
  cobra_builtin name = false ->
  name <> "save" -> name <> "list" -> name <> "edit" -> name <> "run" ->
  main w disk (name :: rest)
  = Some {| trace := [PrintlnErr (UnknownCommand name)]; store := disk; exit_code := 1 |}.
Proof.
  intros Ho Hi Hp Hb Hs Hl He Hr. unfold main, route.
  rewrite Ho, Hi, Hp, Hb. cbn [negb].
  apply String.eqb_neq in Hs, Hl, He, Hr. now rewrite Hs, Hl, He, Hr.
Qed.

End MainFacts.

(** C7: a bare invocation [cmdex <alias> ...] is meant to behave like
    [cmdex run <alias> ...], and the code does not achieve it.  With the
    alias "g" stored, [cmdex run g] starts the stored command, whereas
    [cmdex g] ends as an unknown-command error of the command line with
    exit code 1 and starts nothing, although the root command's [Run]
    function, had it been called with the same words, would have done what
    [run] does. *)
Theorem C7_bare_invocation_rejected :
  let disk : Bucket := {[ "g" := "echo hi" ]} in
  main quiet_world disk ["run"; "g"]
  = Some {| trace := [Exec "echo" ["hi"]]; store := disk; exit_code := 0 |}
  /\ main quiet_world disk ["g"]
     = Some {| trace := [PrintlnErr (UnknownCommand "g")]; store := disk; exit_code := 1 |}
  /\ rootCmd quiet_world disk ["g"] = runCmd quiet_world disk ["g"].
Proof. repeat split; vm_compute; reflexivity. Qed.

(** C8 (a non-zero exit code only for errors of the command line) fails:
    a store that cannot be opened ends the process with exit code 1
    although the command line is in order. *)
Lemma C8_counterexample :
  let w := {| open_fault := Some "timeout"; init_fault := None;
              commit_fault := None; run_child := fun _ _ => None |} in
  route ["list"] = Some (inr (ToList []))
  /\ main w ∅ ["list"]
     = Some {| trace := [LogFatal "timeout"]; store := ∅; exit_code := 1 |}.
Proof. split; reflexivity. Qed.

(** C8 (amended): the process ends with a non-zero exit code exactly when
    the store cannot be opened or set up at start, or when cobra reports an
    error of the command line; once a handler runs, the exit code is 0
    whatever goes wrong in it, and a failing write transaction or a failing
    child process is reported by a printed line. *)
Theorem C8_exit_code :
  (forall w disk argv out,
      main w disk argv = Some out ->
      (exit_code out <> 0
       <-> (open_fault w <> None \/ init_fault w <> None
            \/ exists e, route argv = Some (inl e))))
  /\ (forall w disk argv r,
        open_fault w = None -> init_fault w = None ->
        route argv = Some (inr r) ->
        main w disk argv
        = Some {| trace := events (dispatch w disk r);
                  store := bucket (dispatch w disk r); exit_code := 0 |})
  /\ (forall w b a xs e,
        commit_fault w = Some e -> storable a (Join xs " ") = true ->
        saveCmd w b (a :: xs)
        = returned [Print ("Error saving command: " ++ e ++ nl)] b)
  /\ (forall w b a xs old e,
        commit_fault w = Some e -> storable a (Join xs " ") = true ->
        Get b a = Some old ->
        editCmd w b (a :: xs)
        = returned [Print ("Error editing command: " ++ e ++ nl)] b)
  /\ (forall w b alias args template name argv e,
        Get b alias = Some template ->
        Fields (substitute template args) = name :: argv ->
        run_child w name argv = Some e ->
        runCommand w b alias args
        = returned [Exec name argv; Print ("Error executing command: " ++ e ++ nl)] b).
Proof.
  assert (Hrouted : forall w disk argv r,
             open_fault w = None -> init_fault w = None ->
             route argv = Some (inr r) ->
             main w disk argv
             = Some {| trace := events (dispatch w disk r);
                       store := bucket (dispatch w disk r); exit_code := 0 |}).
  { intros w disk argv r Ho Hi Hr. unfold main. rewrite Ho, Hi, Hr.
    now rewrite (routed_handler_returns w disk argv r Hr). }
  split; [|split; [exact Hrouted|split; [|split]]].
  - intros w disk argv out Hmain.
    destruct (open_fault w) as [e|] eqn:Ho.
    { unfold main in Hmain. rewrite Ho in Hmain. injection Hmain as <-.
      cbn [exit_code]. split; [intros _; now left | intros _; lia]. }
    destruct (init_fault w) as [e|] eqn:Hi.
    { unfold main in Hmain. rewrite Ho, Hi in Hmain. injection Hmain as <-.
      cbn [exit_code]. split; [intros _; right; now left | intros _; lia]. }
    destruct (route argv) as [[e|r]|] eqn:Hr.
    + unfold main in Hmain. rewrite Ho, Hi, Hr in Hmain. injection Hmain as <-.
      cbn [exit_code]. split; [intros _; right; right; now exists e | intros _; lia].
    + rewrite (Hrouted w disk argv r Ho Hi Hr) in Hmain. injection Hmain as <-.
      cbn [exit_code]. split; [congruence|].
      intros [H|[H|[e H]]]; congruence.
    + unfold main in Hmain. rewrite Ho, Hi, Hr in Hmain. discriminate.
  - intros w b a xs e Hc Hs. unfold saveCmd, Update.
    now rewrite (Put_storable _ _ _ Hs), Hc.
  - intros w b a xs old e Hc Hs Hget. unfold editCmd, Update.
    now rewrite Hget, (Put_storable _ _ _ Hs), Hc.
  - intros w b alias args template name argv e Hget Hf Hrun.
    now rewrite (runCommand_present _ _ _ _ _ Hget), Hf, Hrun.
Qed.

Lemma C8_witness :
  main {| open_fault := None; init_fault := None;
          commit_fault := Some "disk full"; run_child := fun _ _ => None |}
       ∅ ["save"; "g"; "git"; "status"]
  = Some {| trace := [Print ("Error saving command: disk full" ++ nl)];
            store := ∅; exit_code := 0 |}.
Proof.
  rewrite (proj1 (proj2 C8_exit_code) _ ∅ ["save"; "g"; "git"; "status"]
             (ToSave ["g"; "git"; "status"])) by reflexivity.
  reflexivity.
Defined.

(* ===================================================================== *)
(** * Further properties of the handlers                                  *)
(* ===================================================================== *)

Section WriteFacts.

Lemma Put_inr_storable (b b' : Bucket) (key value : string) :
  Put b key value = inr b' -> storable key value = true.
Proof.
  unfold Put, storable.
  destruct (Z.eqb_spec (len key) 0); [discriminate|].
  destruct (Z.ltb_spec MaxKeySize (len key)); [discriminate|].
  destruct (Z.ltb_spec MaxValueSize (len value)); [discriminate|].
  intros _. rewrite !andb_true_iff, Z.ltb_lt, !Z.leb_le. unfold len in *. lia.
Qed.

(** What a write transaction on the alias [key] can leave behind. *)
Lemma Update_Put_cases (commit : option error) (b : Bucket) (key value : string) :
  (storable key value = true
   /\ Update commit (fun b => Put b key value) b = (None, <[key := value]> b))
  \/ exists e, Update commit (fun b => Put b key value) b = (Some e, b).
Proof.
  unfold Update. destruct (Put b key value) as [e|b'] eqn:HP;
    [right; now exists e|].
  destruct commit as [e|]; [right; now exists e | left].
  split; [exact (Put_inr_storable _ _ _ _ HP) | now rewrite (Put_inr _ _ _ _ HP)].
Qed.

Lemma saveCmd_cases (w : World) (b : Bucket) (alias : string) (rest : list string) :
  (storable alias (Join rest " ") = true
   /\ saveCmd w b (alias :: rest)
      = returned [Print ("Command saved with alias: " ++ alias ++ nl)]
          (<[alias := Join rest " "]> b))
  \/ exists e,
       saveCmd w b (alias :: rest)
       = returned [Print ("Error saving command: " ++ e ++ nl)] b.
Proof.
  unfold saveCmd.
  destruct (Update_Put_cases (commit_fault w) b alias (Join rest " "))
    as [[Hs ->]|[e ->]]; [now left | right; now exists e].
Qed.

Lemma editCmd_cases (w : World) (b : Bucket) (alias : string) (rest : list string) :
  (is_Some (Get b alias) /\ storable alias (Join rest " ") = true
   /\ editCmd w b (alias :: rest)
      = returned [Print ("Command updated for alias: " ++ alias ++ nl)]
          (<[alias := Join rest " "]> b))
  \/ exists e,
       editCmd w b (alias :: rest)
       = returned [Print ("Error editing command: " ++ e ++ nl)] b.
Proof.
  unfold editCmd, Update. destruct (Get b alias) as [old|] eqn:Hget.
  - destruct (Put b alias (Join rest " ")) as [e|b'] eqn:HP;
      [right; now exists e|].
    pose proof (Put_inr_storable _ _ _ _ HP) as Hs. apply Put_inr in HP as ->.
    destruct (commit_fault w) as [e|]; [right; now exists e | left].
    split; [now exists old | now split].
  - right. now eexists.
Qed.

End WriteFacts.

(** X1: a save either stores the joined text under the alias and prints
    the confirmation, or prints an error line and leaves the store exactly
    as it was; it succeeds exactly when the store accepts key and value and
    the commit goes through. *)
Theorem X1_save_all_or_nothing :
  forall w b alias rest,
    let ran := saveCmd w b (alias :: rest) in
    (storable alias (Join rest " ") = true /\ commit_fault w = None
     /\ ran = returned [Print ("Command saved with alias: " ++ alias ++ nl)]
                (<[alias := Join rest " "]> b))
    \/ ((storable alias (Join rest " ") = false \/ commit_fault w <> None)
        /\ exists e, ran = returned [Print ("Error saving command: " ++ e ++ nl)] b).
Proof.
  intros w b alias rest ran. subst ran.
  destruct (storable alias (Join rest " ")) eqn:Hs.
  - destruct (commit_fault w) as [e|] eqn:Hc.
    + right. split; [now right|]. exists e.
      unfold saveCmd, Update. now rewrite (Put_storable _ _ _ Hs), Hc.
    + left. repeat split. now apply saveCmd_stored.
  - right. split; [now left|].
    destruct (saveCmd_cases w b alias rest) as [[Hs' _]|H]; [congruence | exact H].
Qed.

(** X2: an edit has three outcomes only: the alias is present and its text
    is replaced, with the confirmation printed; or an error line is
    printed and the store is left exactly as it was.  In every case the set
    of aliases is the same before and after. *)
Theorem X2_edit_keeps_the_aliases :
  forall w b alias rest,
    let ran := editCmd w b (alias :: rest) in
    ((is_Some (Get b alias)
      /\ ran = returned [Print ("Command updated for alias: " ++ alias ++ nl)]
                 (<[alias := Join rest " "]> b))
     \/ exists e, ran = returned [Print ("Error editing command: " ++ e ++ nl)] b)
    /\ dom (bucket ran) = dom b.
Proof.
  intros w b alias rest ran. subst ran.
  destruct (editCmd_cases w b alias rest) as [(Hsome & _ & H)|[e H]].
  - split; [left; now split|]. rewrite H. cbn [bucket returned].
    now apply dom_insert_lookup_L.
  - split; [right; now exists e|]. now rewrite H.
Qed.

(** X3: a save or an edit of one alias never touches the text stored
    under another alias, whether it succeeds or fails. *)
Theorem X3_other_aliases_untouched :
  forall w b alias rest other,
    other <> alias ->
    Get (bucket (saveCmd w b (alias :: rest))) other = Get b other
    /\ Get (bucket (editCmd w b (alias :: rest))) other = Get b other.
Proof.
  intros w b alias rest other Hne. split.
  - destruct (saveCmd_cases w b alias rest) as [[_ ->]|[e ->]]; [|reflexivity].
    cbn [bucket returned]. unfold Get. now rewrite lookup_insert_ne.
  - destruct (editCmd_cases w b alias rest) as [(_ & _ & ->)|[e ->]]; [|reflexivity].
    cbn [bucket returned]. unfold Get. now rewrite lookup_insert_ne.
Qed.

Lemma X3_witness :
  Get (bucket (saveCmd quiet_world {[ "g" := "git status" ]} ["l"; "ls"])) "g"
  = Get ({[ "g" := "git status" ]} : Bucket) "g"
  /\ Get (bucket (editCmd quiet_world {[ "g" := "git status" ]} ["l"; "ls"])) "g"
     = Get ({[ "g" := "git status" ]} : Bucket) "g".
Proof.
  apply (X3_other_aliases_untouched quiet_world {[ "g" := "git status" ]} "l" ["ls"] "g").
  discriminate.
Defined.

Section RunFacts.

(** The command lines that reach a handler, and the handler they reach. *)
Lemma route_inr_inv (argv : list string) (r : Route) :
  route argv = Some (inr r) ->
  (argv = [] /\ r = ToRoot [])
  \/ (exists rest, argv = "save" :: rest /\ r = ToSave rest /\ (2 <= length rest)%nat)
  \/ (exists rest, argv = "list" :: rest /\ r = ToList rest)
  \/ (exists rest, argv = "edit" :: rest /\ r = ToEdit rest /\ (2 <= length rest)%nat)
  \/ (exists rest, argv = "run" :: rest /\ r = ToRun rest /\ (1 <= length rest)%nat).
Proof.
  unfold route. destruct (forallb plain argv); [|discriminate].
  destruct argv as [|name rest]; cbn [negb]; [intros [= <-]; now left|].
  destruct (cobra_builtin name); [discriminate|].
  unfold validated, MinimumNArgs. intros H. right.
  destruct (String.eqb_spec name "save") as [->|_].
  { destruct (_ <? _)%nat eqn:Hlen; [discriminate|]; apply Nat.ltb_ge in Hlen.
    injection H as <-. left. now exists rest. }
  destruct (String.eqb_spec name "list") as [->|_].
  { injection H as <-. right. left. now exists rest. }
  destruct (String.eqb_spec name "edit") as [->|_].
  { destruct (_ <? _)%nat eqn:Hlen; [discriminate|]; apply Nat.ltb_ge in Hlen.
    injection H as <-. right. right. left. now exists rest. }
  destruct (String.eqb_spec name "run") as [->|_]; [|discriminate].
  destruct (_ <? _)%nat eqn:Hlen; [discriminate|]; apply Nat.ltb_ge in Hlen.
  injection H as <-. right. right. right. now exists rest.
Qed.

(** A run either ends before any handler is called, with the store as it
    was and exit code 1, or it is the run of the handler that the command
    line selects, with exit code 0. *)
Lemma main_cases (w : World) (disk : Bucket) (argv : list string) (out : Outcome) :
  main w disk argv = Some out ->
  (store out = disk /\ exit_code out = 1
   /\ exists ev, trace out = [ev] /\ is_exec ev = false)
  \/ exists r, route argv = Some (inr r)
               /\ out = {| trace := events (dispatch w disk r);
                           store := bucket (dispatch w disk r);
                           exit_code := 0 |}.
Proof.
  unfold main. destruct (open_fault w) as [e|].
  { intros [= <-]. left. repeat split. now eexists. }
  destruct (init_fault w) as [e|].
  { intros [= <-]. left. repeat split. now eexists. }
  destruct (route argv) as [[e|r]|] eqn:Hr; [| |discriminate].
  { intros [= <-]. left. repeat split. now eexists. }
  intros [= <-]. right. exists r. split; [reflexivity|].
  now rewrite (routed_handler_returns w disk argv r Hr).
Qed.

(** [list] and the root command write nothing. *)
Lemma listCmd_bucket (w : World) (b : Bucket) (args : list string) :
  bucket (listCmd w b args) = b.
Proof. reflexivity. Qed.

Lemma rootCmd_bucket (w : World) (b : Bucket) (args : list string) :
  bucket (rootCmd w b args) = b.
Proof.
  destruct args as [|alias rest]; [reflexivity|]. apply runCommand_returns.
Qed.

(** What one run can change in the store: the entry of the alias given to
    [save] or [edit], and nothing else. *)
Lemma main_store_change (w : World) (disk : Bucket) (argv : list string)
    (out : Outcome) (key : string) :
  main w disk argv = Some out ->
  store out !! key <> disk !! key ->
  exists rest, storable key (Join rest " ") = true
               /\ store out = <[key := Join rest " "]> disk
               /\ (argv = "save" :: key :: rest
                   \/ (argv = "edit" :: key :: rest /\ is_Some (disk !! key))).
Proof.
  intros Hmain Hne.
  destruct (main_cases _ _ _ _ Hmain) as [[Hs _]|[r [Hr ->]]]; [congruence|].
  cbn [store] in *.
  destruct (route_inr_inv _ _ Hr)
    as [[_ ->]|[[rest (-> & -> & Hlen)]|[[rest (_ & ->)]|[[rest (-> & -> & Hlen)]|[rest (_ & -> & Hlen)]]]]];
    cbn [dispatch] in *.
  - now rewrite rootCmd_bucket in Hne.
  - destruct rest as [|alias rest]; [cbn in Hlen; lia|]. exists rest.
    destruct (saveCmd_cases w disk alias rest) as [[Hs H]|[e H]];
      rewrite H in *; cbn [bucket returned] in *; [|congruence].
    destruct (decide (alias = key)) as [->|Hk]; [repeat split; auto|].
    now rewrite lookup_insert_ne in Hne.
  - now rewrite listCmd_bucket in Hne.
  - destruct rest as [|alias rest]; [cbn in Hlen; lia|]. exists rest.
    destruct (editCmd_cases w disk alias rest) as [(Hsome & Hs & H)|[e H]];
      rewrite H in *; cbn [bucket returned] in *; [|congruence].
    destruct (decide (alias = key)) as [->|Hk]; [repeat split; auto|].
    now rewrite lookup_insert_ne in Hne.
  - destruct rest as [|alias rest]; [cbn in Hlen; lia|]. cbn [runCmd] in Hne.
    now rewrite (proj1 (runCommand_returns w disk alias rest)) in Hne.
Qed.

End RunFacts.



Section InvariantFacts.

(** Whatever a run writes has passed the checks of [Put]. *)
Lemma main_writes_storable (w : World) (disk : Bucket) (argv : list string)
    (out : Outcome) (key value : string) :
  main w disk argv = Some out ->
  store out !! key = Some value ->
  disk !! key = Some value \/ storable key value = true.
Proof.
  intros Hmain Hout.
  destruct (decide (store out !! key = disk !! key)) as [Heq|Hne];
    [left; congruence | right].
  destruct (main_store_change _ _ _ _ _ Hmain Hne) as [rest (Hs & Hst & _)].
  rewrite Hst, lookup_insert_eq in Hout. now injection Hout as <-.
Qed.

End InvariantFacts.

(** X5: in every store that runs of the program produce from an empty one,
    each alias is non-empty and at most [MaxKeySize] bytes long, and each
    stored text is within the value size limit: entries only come from a
    [Put] that accepted them, and nothing else writes. *)
Theorem X5_reachable_stores_hold_valid_entries :
  forall b key value,
    reachable b -> Get b key = Some value ->
    storable key value = true /\ key <> "".
Proof.
  intros b key value Hreach. revert key value.
  assert (Hall : forall key value, b !! key = Some value -> storable key value = true).
  { induction Hreach as [|w disk argv out Hreach IH Hmain]; intros key value Hget.
    - now rewrite lookup_empty in Hget.
    - destruct (main_writes_storable _ _ _ _ _ _ Hmain Hget) as [Hold|Hnew]; auto. }
  intros key value Hget. split; [now apply Hall|].
  intros ->. apply Hall in Hget. discriminate Hget.
Qed.

Lemma X5_witness :
  exists out,
    main quiet_world ∅ ["save"; "g"; "git"; "status"] = Some out
    /\ Get (store out) "g" = Some "git status"
    /\ storable "g" "git status" = true /\ "g" <> "".
Proof.
  eexists. split; [reflexivity|]. split; [reflexivity|].
  apply (X5_reachable_stores_hold_valid_entries
           (store {| trace := [Print ("Command saved with alias: g" ++ nl)];
                     store := <["g" := "git status"]> ∅; exit_code := 0 |})).
  - apply (reachable_run quiet_world ∅ ["save"; "g"; "git"; "status"]);
      [apply reachable_empty | reflexivity].
  - reflexivity.
Defined.

(** X6: [list] prints exactly one line per stored alias and nothing else:
    the lines are those of the entries in ascending order of the keys, no
    key twice, every stored pair among them; neither the arguments nor the
    surroundings matter, and the store is left as it was. *)
Theorem X6_list_prints_every_entry_once :
  forall w b args,
    listCmd w b args = returned (map list_line (entries b)) b
    /\ length (events (listCmd w b args)) = size b
    /\ Sorted (fun x y => String.le (fst x) (fst y)) (entries b)
    /\ NoDup (map fst (entries b))
    /\ (forall key value, (key, value) ∈ entries b <-> Get b key = Some value).
Proof.
  intros w b args.
  assert (Hperm : entries b ≡ₚ map_to_list b) by apply merge_sort_Permutation.
  split; [reflexivity|]. split.
  { unfold listCmd, View. cbn [events returned].
    now rewrite length_map, Hperm, length_map_to_list. }
  split; [apply entries_sorted|]. split.
  { rewrite Hperm. apply NoDup_fst_map_to_list. }
  intros key value. apply entries_elem_of.
Qed.

(** X7: a run of the program ends with exit code 0 or 1, never through an
    index panic: whenever cobra passes a command line on to a handler, the
    handler finds the arguments it indexes, returns normally and the exit
    code is 0. *)
Theorem X7_no_panic_exit_code_0_or_1 :
  forall w disk argv out,
    main w disk argv = Some out ->
    (exit_code out = 0 \/ exit_code out = 1)
    /\ (forall r, route argv = Some (inr r) ->
                  completion (dispatch w disk r) = Returned).
Proof.
  intros w disk argv out Hmain. split.
  - destruct (main_cases _ _ _ _ Hmain) as [(_ & H1 & _)|[r [_ ->]]]; auto.
  - intros r Hr. exact (routed_handler_returns w disk argv r Hr).
Qed.

Lemma X7_witness :
  exists out,
    main quiet_world ∅ ["run"] = Some out
    /\ (exit_code out = 0 \/ exit_code out = 1).
Proof.
  eexists. split; [reflexivity|].
  apply (X7_no_panic_exit_code_0_or_1 quiet_world ∅ ["run"]). reflexivity.
Defined.

(** X8: [save] and [edit] with fewer than two words after the command name
    and [run] without any word are errors of the command line: the error
    is printed, the exit code is 1, no handler runs and the store is left
    as it was. *)
Theorem X8_too_few_arguments_rejected :
  forall w disk rest,
    open_fault w = None -> init_fault w = None ->
    forallb plain rest = true ->
    let usage need :=
      Some {| trace := [PrintlnErr (TooFewArgs need (length rest))];
              store := disk; exit_code := 1 |} in
    ((length rest < 2)%nat -> main w disk ("save" :: rest) = usage 2%nat)
    /\ ((length rest < 2)%nat -> main w disk ("edit" :: rest) = usage 2%nat)
    /\ ((length rest < 1)%nat -> main w disk ("run" :: rest) = usage 1%nat).
Proof.
  intros w disk rest Ho Hi Hp usage. subst usage. cbv beta.
  unfold main, route. rewrite Ho, Hi.
  change (forallb plain ("save" :: rest)) with (forallb plain rest).
  change (forallb plain ("edit" :: rest)) with (forallb plain rest).
  change (forallb plain ("run" :: rest)) with (forallb plain rest).
  rewrite Hp. cbn [negb]. unfold validated, MinimumNArgs.
  repeat split; intros Hlen; apply Nat.ltb_lt in Hlen; rewrite Hlen; reflexivity.
Qed.

Lemma X8_witness :
  main quiet_world {[ "g" := "git status" ]} ["save"; "g"]
  = Some {| trace := [PrintlnErr (TooFewArgs 2 1)];
            store := {[ "g" := "git status" ]}; exit_code := 1 |}.
Proof.
  apply (X8_too_few_arguments_rejected quiet_world {[ "g" := "git status" ]} ["g"]);
    try reflexivity. cbn. lia.
Defined.

(* ===================================================================== *)
(** * Further facts about tokenization                                    *)
(* ===================================================================== *)

Section SliceFacts.

Lemma substring_0_append (b c : string) :
  String.substring 0 (String.length b) (b ++ c) = b.
Proof.
  induction b as [|x b IH]; [now destruct c|].
  rewrite append_cons. cbn [String.length String.substring]. now rewrite IH.
Qed.

Lemma substring_middle (a b c : string) :
  String.substring (String.length a) (String.length b) (a ++ b ++ c) = b.
Proof.
  induction a as [|x a IH]; [exact (substring_0_append b c)|].
  rewrite append_cons. exact IH.
Qed.

Lemma slice_middle (a b c : string) :
  slice (a ++ b ++ c) (len a) (len a + len b) = b.
Proof.
  unfold slice, len.
  replace (Z.of_nat (String.length a) + Z.of_nat (String.length b)
           - Z.of_nat (String.length a)) with (Z.of_nat (String.length b)) by lia.
  rewrite !Nat2Z.id. apply substring_middle.
Qed.

Lemma slice_to_end (a b : string) : slice (a ++ b) (len a) (len (a ++ b)) = b.
Proof.
  rewrite <- (append_nil_r b) at 1. unfold len at 2.
  rewrite length_append, Nat2Z.inj_add. apply slice_middle.
Qed.

End SliceFacts.

Section RangeFacts.

(** A rune takes at least one byte and no more than there are. *)
Lemma decode_width (c : ascii) (t : string) :
  (1 <= snd (DecodeRuneInString (String c t)) <= S (String.length t))%nat.
Proof.
  unfold DecodeRuneInString.
  destruct (byte_val c <? 128); [cbn; lia|].
  destruct (lead_info (byte_val c)) as [[[sz lo] hi]|]; [|cbn; lia].
  destruct t as [|c1 t1]; [cbn; lia|].
  destruct (_ || _); [cbn; lia|].
  destruct (sz <=? 2)%nat; [cbn; lia|].
  destruct t1 as [|c2 t2]; [cbn; lia|].
  destruct (negb _); [cbn; lia|].
  destruct (sz <=? 3)%nat; [cbn; lia|].
  destruct t2 as [|c3 t3]; [cbn; lia|].
  destruct (negb _); cbn; lia.
Qed.

Lemma lead_info_lo (b0 : Z) (sz : nat) (lo hi : Z) :
  lead_info b0 = Some (sz, lo, hi) -> 128 <= lo.
Proof.
  unfold lead_info.
  repeat (destruct (_ : bool); [intros [= <- <- <-]; lia|]). discriminate.
Qed.

(** Decoding does not look beyond a byte below 0x80: the rune at the start
    of a non-empty string is the same when such a byte follows the
    string. *)
Lemma decode_before_ascii (c : ascii) (t : string) (x : ascii) (r : string) :
  byte_val x < 128 ->
  DecodeRuneInString (String c t ++ String x r) = DecodeRuneInString (String c t).
Proof.
  intros Hx. rewrite append_cons. unfold DecodeRuneInString.
  destruct (byte_val c <? 128); [reflexivity|].
  destruct (lead_info (byte_val c)) as [[[sz lo] hi]|] eqn:Hlead; [|reflexivity].
  apply lead_info_lo in Hlead.
  assert (Hcont : is_cont (byte_val x) = false).
  { unfold is_cont. destruct (Z.leb_spec 128 (byte_val x)); [lia | reflexivity]. }
  destruct t as [|c1 t1].
  { rewrite append_nil_l.
    destruct (Z.ltb_spec (byte_val x) lo); [reflexivity | lia]. }
  rewrite append_cons. destruct (_ || _); [reflexivity|].
  destruct (sz <=? 2)%nat; [reflexivity|].
  destruct t1 as [|c2 t2].
  { rewrite append_nil_l. now rewrite Hcont. }
  rewrite append_cons. destruct (negb _); [reflexivity|].
  destruct (sz <=? 3)%nat; [reflexivity|].
  destruct t2 as [|c3 t3].
  { rewrite append_nil_l. now rewrite Hcont. }
  rewrite append_cons. reflexivity.
Qed.

(** The [range] loop over a string that is followed by a byte below 0x80
    (or by nothing) is the loop over the string, then the loop over what
    follows. *)
Lemma range_from_append (u v : string) (i : Z) (k : nat) :
  (k <= String.length u)%nat ->
  (v = "" \/ exists x r, v = String x r /\ byte_val x < 128) ->
  range_from i k (u ++ v)
  = (range_from i k u ++ range_from (i + len u) 0 v)%list.
Proof.
  intros Hk Hv. revert i k Hk. induction u as [|c t IH]; intros i k Hk.
  - cbn in Hk. assert (k = 0%nat) as -> by lia.
    rewrite append_nil_l. cbn [range_from app]. unfold len. cbn [String.length].
    now rewrite Z.add_0_r.
  - assert (Hlen : i + len (String c t) = i + 1 + len t)
      by (unfold len; cbn [String.length]; lia).
    rewrite Hlen, append_cons. cbn [range_from]. destruct k as [|k].
    + rewrite <- append_cons.
      assert (Hdec : DecodeRuneInString (String c t ++ v)
                     = DecodeRuneInString (String c t)).
      { destruct Hv as [->|(x & r & -> & Hx)];
          [now rewrite append_nil_r | now apply decode_before_ascii]. }
      rewrite Hdec. pose proof (decode_width c t) as Hw.
      destruct (DecodeRuneInString (String c t)) as [rn w]. cbn [snd] in Hw.
      rewrite IH by lia. reflexivity.
    + cbn [String.length] in Hk. rewrite IH by lia. reflexivity.
Qed.

Lemma range_from_ascending (s : string) (i : Z) (k : nat) :
  ascending i (range_from i k s)
  /\ Forall (fun ir => fst ir < i + len s) (range_from i k s).
Proof.
  revert i k. induction s as [|c t IH]; intros i k; [now split|].
  assert (Hlen : i + len (String c t) = i + 1 + len t)
    by (unfold len; cbn [String.length]; lia).
  rewrite Hlen. cbn [range_from]. destruct k as [|k].
  - destruct (DecodeRuneInString (String c t)) as [rn w].
    destruct (IH (i + 1) (Nat.pred w)) as [Ha Hb]. split.
    + cbn [ascending]. split; [lia | exact Ha].
    + constructor; [cbn; unfold len; lia | exact Hb].
  - destruct (IH (i + 1) k) as [Ha Hb]. split; [|exact Hb].
    clear -Ha. destruct (range_from (i + 1) k t) as [|[e r] rs]; [exact I|].
    cbn [ascending] in *. split; [lia | tauto].
Qed.

(** The loop over a non-empty string starts with the rune at its first
    byte. *)
Lemma range_from_head (c : ascii) (t : string) (i : Z) :
  exists rs, range_from i 0 (String c t)
             = (i, fst (DecodeRuneInString (String c t))) :: rs.
Proof.
  cbn [range_from]. destruct (DecodeRuneInString (String c t)) as [rn w].
  now eexists.
Qed.

End RangeFacts.

Section FieldsLoopFacts.

Variable f : Z -> bool.

Lemma fields_loop_app (rs1 rs2 : list (Z * Z)) (start : Z) (spans : list (Z * Z)) :
  fields_loop f (rs1 ++ rs2) start spans
  = fields_loop f rs2 (fst (fields_loop f rs1 start spans))
      (snd (fields_loop f rs1 start spans)).
Proof.
  revert start spans. induction rs1 as [|[e r] rs1 IH]; intros start spans;
    [reflexivity|].
  cbn [app fields_loop]. destruct (f r); destruct (_ : bool); apply IH.
Qed.

(** Over runes that are no separators the loop only opens a field, at the
    first of them, unless one is open already. *)
Lemma fields_loop_word (rs : list (Z * Z)) (start : Z) (spans : list (Z * Z)) :
  Forall (fun ir => f (snd ir) = false) rs ->
  Forall (fun ir => 0 <= fst ir) rs ->
  fields_loop f rs start spans
  = (match rs with
     | [] => start
     | (e, _) :: _ => if start <? 0 then e else start
     end, spans).
Proof.
  intros Hf Hidx. revert start. induction Hf as [|[e r] rs Hr Hf IH]; intros start;
    [reflexivity|].
  apply Forall_cons in Hidx as [He Hidx]. cbn [fst snd] in *.
  cbn [fields_loop]. rewrite Hr.
  destruct (Z.ltb_spec start 0) as [Hs|Hs]; rewrite (IH Hidx);
    (destruct rs as [|[e' r'] rs]; [reflexivity|]).
  - destruct (Z.ltb_spec e 0); [lia | reflexivity].
  - destruct (Z.ltb_spec start 0); [lia | reflexivity].
Qed.

End FieldsLoopFacts.

Section FieldsWordFacts.

Lemma range_from_nonneg (s : string) (i : Z) (k : nat) :
  0 <= i -> Forall (fun ir => 0 <= fst ir) (range_from i k s).
Proof. apply range_from_index_nonneg. Qed.

(** The runes of a [range] loop do not depend on where the count of the
    indices starts. *)
Lemma range_from_runes (s : string) (i j : Z) (k : nat) :
  map snd (range_from i k s) = map snd (range_from j k s).
Proof.
  revert i j k. induction s as [|c t IH]; intros i j k; [reflexivity|].
  cbn [range_from]. destruct k as [|k]; [|apply IH].
  destruct (DecodeRuneInString (String c t)) as [rn w].
  cbn [map snd]. f_equal. apply IH.
Qed.

Lemma clean_word_inv (x : string) :
  clean_word x = true ->
  exists c t, x = String c t
              /\ forall i, Forall (fun ir => IsSpace (snd ir) = false)
                             (range_from i 0 x).
Proof.
  unfold clean_word. rewrite andb_true_iff, forallb_forall.
  intros [Hne Hall]. destruct x as [|c t]; [discriminate|].
  exists c, t. split; [reflexivity|]. intros i.
  apply (Forall_fmap snd (fun rn => IsSpace rn = false)).
  rewrite (range_from_runes _ i 0 0). apply Forall_fmap, Forall_forall.
  intros ir Hin. apply list_elem_of_In, Hall in Hin. now apply negb_true_iff.
Qed.

(** The loop over a clean word that is followed by a byte below 0x80 or by
    nothing. *)
Lemma fields_loop_clean_word (x v : string) (i start : Z) (spans : list (Z * Z)) :
  clean_word x = true -> 0 <= i ->
  (v = "" \/ exists c r, v = String c r /\ byte_val c < 128) ->
  fields_loop IsSpace (range_from i 0 (x ++ v)) start spans
  = fields_loop IsSpace (range_from (i + len x) 0 v)
      (if start <? 0 then i else start) spans.
Proof.
  intros Hx Hi Hv. destruct (clean_word_inv x Hx) as (c & t & -> & Hall).
  rewrite range_from_append by (exact Hv || (cbn; lia)).
  rewrite fields_loop_app.
  rewrite (fields_loop_word IsSpace _ start spans (Hall i)
             (range_from_nonneg _ i 0 Hi)).
  destruct (range_from_head c t i) as [rs ->]. reflexivity.
Qed.

End FieldsWordFacts.

Section JoinFacts.

Lemma Join_cons (x y : string) (ys : list string) :
  Join (x :: y :: ys) " " = x ++ String " " (Join (y :: ys) " ").
Proof. reflexivity. Qed.

Lemma range_from_space (i : Z) (rest : string) :
  range_from i 0 (String " " rest) = (i, 32) :: range_from (i + 1) 0 rest.
Proof. reflexivity. Qed.

Lemma len_append (a b : string) : len (a ++ b) = len a + len b.
Proof. unfold len. rewrite length_append. lia. Qed.

Lemma len_nonneg (a : string) : 0 <= len a.
Proof. unfold len. lia. Qed.

(** The loop of [Fields] over clean words joined by single spaces, the
    joined text standing behind [p]: the words come out one by one. *)
Lemma fields_loop_Join (xs : list string) (p : string) (start : Z)
    (spans : list (Z * Z)) :
  xs <> [] -> Forall (fun x => clean_word x = true) xs -> start < 0 ->
  let s := p ++ Join xs " " in
  let res := fields_loop IsSpace (range_from (len p) 0 (Join xs " ")) start spans in
  0 <= fst res
  /\ map (fun sp => slice s (fst sp) (snd sp)) (snd res ++ [(fst res, len s)])
     = (map (fun sp => slice s (fst sp) (snd sp)) spans ++ xs)%list.
Proof.
  intros Hne Hclean. revert p start spans.
  induction Hclean as [|x xs Hx Hclean IH]; [congruence|]. clear Hne.
  intros p start spans Hstart s res. subst s res.
  pose proof (len_nonneg p) as Hp.
  destruct xs as [|y ys].
  - change (Join [x] " ") with x.
    pose proof (fields_loop_clean_word x "" (len p) start spans Hx Hp
                  (or_introl eq_refl)) as Hw.
    rewrite append_nil_r in Hw. rewrite Hw.
    cbn [range_from fields_loop fst snd].
    destruct (Z.ltb_spec start 0); [|lia]. split; [exact Hp|].
    rewrite map_app. cbn [map fst snd]. now rewrite slice_to_end.
  - rewrite Join_cons.
    rewrite fields_loop_clean_word; [|exact Hx|lia|right; now exists " "%char, (Join (y :: ys) " ")].
    destruct (Z.ltb_spec start 0); [|lia].
    rewrite range_from_space. cbn [fields_loop].
    change (IsSpace 32) with true. cbv iota.
    destruct (Z.leb_spec 0 (len p)); [|lia].
    specialize (IH ltac:(discriminate) (p ++ x ++ " ") (Z.lnot (len p))
                  (spans ++ [(len p, len p + len x)])%list).
    rewrite !len_append in IH. change (len " ") with 1 in IH.
    rewrite Z.add_assoc in IH.
    replace ((p ++ x ++ " ") ++ Join (y :: ys) " ")
      with (p ++ x ++ String " " (Join (y :: ys) " ")) in IH
      by now rewrite !append_assoc.
    destruct IH as [IH1 IH2]; [unfold Z.lnot; lia|].
    split; [exact IH1|]. rewrite IH2, map_app. cbn [map fst snd].
    rewrite slice_middle, <- app_assoc. reflexivity.
Qed.

(** Joining clean words with single spaces and splitting the result into
    fields gives the words back. *)
Lemma Fields_Join (xs : list string) :
  Forall (fun x => clean_word x = true) xs -> Fields (Join xs " ") = xs.
Proof.
  intros Hclean. destruct xs as [|x xs]; [reflexivity|].
  pose proof (fields_loop_Join (x :: xs) "" (-1) [] ltac:(discriminate) Hclean
                ltac:(lia)) as H.
  cbv zeta in H. rewrite append_nil_l in H. change (len "") with 0 in H.
  unfold Fields, FieldsFunc, field_spans, range_string.
  destruct (fields_loop IsSpace _ (-1) []) as [start spans].
  cbn [fst snd] in H. destruct H as [H1 H2].
  destruct (Z.leb_spec 0 start); [exact H2 | lia].
Qed.

End JoinFacts.

(* ===================================================================== *)
(** * The fields are clean words                                          *)
(* ===================================================================== *)

Section DecodeLocalFacts.

(** A rune that ends within the first part of a concatenation is decoded
    from that part alone. *)
Lemma decode_truncate (c : ascii) (t y : string) :
  (snd (DecodeRuneInString (String c t ++ y)) <= S (String.length t))%nat ->
  DecodeRuneInString (String c t ++ y) = DecodeRuneInString (String c t).
Proof.
  rewrite append_cons. unfold DecodeRuneInString.
  destruct (byte_val c <? 128); [reflexivity|].
  destruct (lead_info (byte_val c)) as [[[sz lo] hi]|]; [|reflexivity].
  destruct t as [|c1 t1].
  { rewrite append_nil_l. destruct y as [|y0 y]; [reflexivity|].
    destruct (_ || _); [reflexivity|].
    destruct (sz <=? 2)%nat; [cbn; lia|].
    destruct y as [|y1 y]; [reflexivity|].
    destruct (negb _); [reflexivity|].
    destruct (sz <=? 3)%nat; [cbn; lia|].
    destruct y as [|y2 y]; [reflexivity|].
    destruct (negb _); [reflexivity | cbn; lia]. }
  rewrite append_cons. destruct (_ || _); [reflexivity|].
  destruct (sz <=? 2)%nat; [reflexivity|].
  destruct t1 as [|c2 t2].
  { rewrite append_nil_l. destruct y as [|y0 y]; [reflexivity|].
    destruct (negb _); [reflexivity|].
    destruct (sz <=? 3)%nat; [cbn; lia|].
    destruct y as [|y1 y]; [reflexivity|].
    destruct (negb _); [reflexivity | cbn; lia]. }
  rewrite append_cons. destruct (negb _); [reflexivity|].
  destruct (sz <=? 3)%nat; [reflexivity|].
  destruct t2 as [|c3 t3].
  { rewrite append_nil_l. destruct y as [|y0 y]; [reflexivity|].
    destruct (negb _); [reflexivity | cbn; lia]. }
  rewrite append_cons. reflexivity.
Qed.

(** The indices of a [range] loop that has [k] bytes to skip start at
    [i + k]. *)
Lemma range_from_lower (s : string) (i : Z) (k : nat) :
  Forall (fun ir => i + Z.of_nat k <= fst ir) (range_from i k s).
Proof.
  revert i k. induction s as [|c t IH]; intros i k; [constructor|].
  cbn [range_from]. destruct k as [|k].
  - destruct (DecodeRuneInString (String c t)) as [rn w]. constructor.
    + cbn. lia.
    + eapply Forall_impl; [apply (IH (i + 1) (Nat.pred w))|].
      cbn. intros ir H. lia.
  - eapply Forall_impl; [apply (IH (i + 1) k)|]. cbn. intros ir H. lia.
Qed.

(** The [range] loop over a concatenation whose second part starts where a
    rune starts is the loop over the first part followed by the loop over
    the second. *)
Lemma range_from_split (x y : string) (i : Z) (k : nat) :
  (k <= String.length x)%nat ->
  (y = "" \/ i + len x ∈ map fst (range_from i k (x ++ y))) ->
  range_from i k (x ++ y)
  = (range_from i k x ++ range_from (i + len x) 0 y)%list.
Proof.
  intros Hk [->|Hin].
  { rewrite append_nil_r. cbn [range_from]. now rewrite app_nil_r. }
  revert i k Hk Hin. induction x as [|c t IH]; intros i k Hk Hin.
  - cbn in Hk. assert (k = 0%nat) as -> by lia.
    rewrite append_nil_l. cbn [range_from app]. unfold len. cbn [String.length].
    now rewrite Z.add_0_r.
  - assert (Hlen : i + len (String c t) = i + 1 + len t)
      by (unfold len; cbn [String.length]; lia).
    rewrite Hlen in *. rewrite append_cons in *. cbn [range_from] in *.
    destruct k as [|k].
    + rewrite <- append_cons in *.
      pose proof (range_from_lower (t ++ y) (i + 1)
                    (Nat.pred (snd (DecodeRuneInString (String c t ++ y))))) as Hlow.
      assert (Hw : (snd (DecodeRuneInString (String c t ++ y))
                    <= S (String.length t))%nat).
      { destruct (DecodeRuneInString (String c t ++ y)) as [rn w].
        cbn [snd map fst] in *. apply elem_of_cons in Hin as [Heq|Hin].
        - unfold len in Heq. lia.
        - apply list_elem_of_fmap in Hin as (ir & Heq & Hin).
          rewrite Forall_forall in Hlow. apply Hlow in Hin.
          unfold len in *. lia. }
      rewrite (decode_truncate c t y Hw) in *.
      pose proof (decode_width c t) as Hwidth.
      destruct (DecodeRuneInString (String c t)) as [rn w].
      cbn [snd map fst] in *. cbn [app]. f_equal.
      apply IH; [lia|].
      apply elem_of_cons in Hin as [Heq|Hin]; [unfold len in Heq; lia | exact Hin].
    + cbn [String.length] in Hk. apply IH; [lia | exact Hin].
Qed.

End DecodeLocalFacts.

Section FieldSpanFacts.

Variable f : Z -> bool.

Lemma ascending_sorted (rs : list (Z * Z)) (lo : Z) :
  ascending lo rs ->
  Forall (fun ir => lo <= fst ir) rs
  /\ StronglySorted (fun x y => fst x < fst y) rs.
Proof.
  revert lo. induction rs as [|[e r] rs IH]; intros lo H;
    [split; constructor|].
  cbn [ascending] in H. destruct H as [He H].
  destruct (IH _ H) as [Hlow Hsorted]. split.
  - constructor; [exact He|]. eapply Forall_impl; [exact Hlow|].
    cbn. intros ir Hir. lia.
  - constructor; [exact Hsorted|]. eapply Forall_impl; [exact Hlow|].
    cbn. intros ir Hir. lia.
Qed.

(** Every span of the loop of [FieldsFunc], the last one included, is a
    field span. *)
Lemma fields_loop_field_spans (all : list (Z * Z)) (hi : Z) :
  StronglySorted (fun x y => fst x < fst y) all ->
  Forall (fun ir => fst ir < hi) all ->
  forall rs done start spans,
    all = (done ++ rs)%list ->
    Forall (field_span f all hi) spans ->
    (0 <= start ->
     start ∈ map fst done
     /\ forall ir, ir ∈ done -> start <= fst ir -> f (snd ir) = false) ->
    Forall (field_span f all hi)
      (if 0 <=? fst (fields_loop f rs start spans)
       then snd (fields_loop f rs start spans)
            ++ [(fst (fields_loop f rs start spans), hi)]
       else snd (fields_loop f rs start spans)).
Proof.
  intros Hsorted Hhi. induction rs as [|[e r] rs IH];
    intros done start spans Hall Hspans Hopen.
  - cbn [fields_loop fst snd]. rewrite app_nil_r in Hall. subst done.
    destruct (Z.leb_spec 0 start) as [Hs|Hs]; [|exact Hspans].
    destruct (Hopen Hs) as [Hin Hclean].
    apply Forall_app. split; [exact Hspans|]. constructor; [|constructor].
    repeat split; cbn [fst snd]; auto.
    + apply list_elem_of_fmap in Hin as (ir & -> & Hin).
      rewrite Forall_forall in Hhi. now apply Hhi.
    + intros ir Hir [Hlo _]. now apply Hclean.
  - assert (Hbefore : forall ir, ir ∈ done -> fst ir < e).
    { intros ir Hir. rewrite Hall in Hsorted.
      apply (StronglySorted_app_1_elem_of _ _ _ ir (e, r) Hsorted Hir).
      apply list_elem_of_here. }
    assert (Hafter : forall ir, ir ∈ rs -> e < fst ir).
    { intros ir Hir. rewrite Hall in Hsorted.
      apply StronglySorted_app in Hsorted as (_ & _ & Hsorted).
      apply StronglySorted_cons in Hsorted as [Hsorted _].
      rewrite Forall_forall in Hsorted. now apply (Hsorted ir). }
    assert (Hall' : all = ((done ++ [(e, r)]) ++ rs)%list)
      by now rewrite <- app_assoc.
    cbn [fields_loop]. destruct (f r) eqn:Hf.
    + destruct (Z.leb_spec 0 start) as [Hs|Hs].
      * destruct (Hopen Hs) as [Hin Hclean].
        apply (IH (done ++ [(e, r)])%list); [exact Hall'| |unfold Z.lnot; lia].
        apply Forall_app. split; [exact Hspans|]. constructor; [|constructor].
        repeat split; cbn [fst snd].
        -- rewrite Hall, map_app. apply elem_of_app. now left.
        -- left. rewrite Hall, map_app. apply elem_of_app. right.
           apply list_elem_of_here.
        -- apply list_elem_of_fmap in Hin as (ir & -> & Hin). now apply Hbefore.
        -- intros ir Hir [Hlo Hup]. rewrite Hall in Hir.
           apply elem_of_app in Hir as [Hir|Hir]; [now apply Hclean|].
           apply elem_of_cons in Hir as [->|Hir]; [cbn in Hup; lia|].
           apply Hafter in Hir. lia.
      * apply (IH (done ++ [(e, r)])%list); [exact Hall' | exact Hspans | lia].
    + destruct (Z.ltb_spec start 0) as [Hs|Hs].
      * apply (IH (done ++ [(e, r)])%list); [exact Hall' | exact Hspans |].
        intros _. split.
        -- rewrite map_app. apply elem_of_app. right. apply list_elem_of_here.
        -- intros ir Hir Hlo. apply elem_of_app in Hir as [Hir|Hir].
           ++ apply Hbefore in Hir. lia.
           ++ apply list_elem_of_singleton in Hir. now subst ir.
      * destruct (Hopen Hs) as [Hin Hclean].
        apply (IH (done ++ [(e, r)])%list); [exact Hall' | exact Hspans |].
        intros _. split.
        -- rewrite map_app. apply elem_of_app. now left.
        -- intros ir Hir Hlo. apply elem_of_app in Hir as [Hir|Hir];
             [now apply Hclean|].
           apply list_elem_of_singleton in Hir. now subst ir.
Qed.

End FieldSpanFacts.

Section CleanFieldFacts.

(** A string is cut in two at any length up to its own. *)
Lemma string_cut (s : string) (n : nat) :
  (n <= String.length s)%nat ->
  exists p u, s = p ++ u /\ String.length p = n.
Proof.
  revert n. induction s as [|c s IH]; intros [|n] Hn.
  - now exists "", "".
  - cbn in Hn. lia.
  - now exists "", (String c s).
  - cbn in Hn. destruct (IH n ltac:(lia)) as (p & u & -> & Hlen).
    exists (String c p), u. split; [reflexivity | cbn; now rewrite Hlen].
Qed.

Lemma range_string_index_bounds (s : string) (e : Z) :
  e ∈ map fst (range_string s) -> 0 <= e < len s.
Proof.
  intros Hin. apply list_elem_of_fmap in Hin as (ir & -> & Hin).
  destruct (range_from_ascending s 0 0) as [_ Hhi].
  pose proof (range_from_lower s 0 0) as Hlo.
  rewrite Forall_forall in Hhi, Hlo. apply Hhi in Hin as H1. apply Hlo in Hin as H2.
  lia.
Qed.

(** The text of a field span is a clean word. *)
Lemma field_span_clean (s : string) (a b : Z) :
  field_span IsSpace (range_string s) (len s) (a, b) ->
  clean_word (slice s a b) = true.
Proof.
  intros (Ha & Hb & Hab & Hclean). cbn [fst snd] in *.
  pose proof (range_string_index_bounds s a Ha) as Ha'.
  assert (Hb' : b <= len s).
  { destruct Hb as [Hb| ->]; [apply range_string_index_bounds in Hb|]; lia. }
  destruct (string_cut s (Z.to_nat a)) as (p & u & Hs & Hp);
    [unfold len in *; lia|].
  destruct (string_cut u (Z.to_nat (b - a))) as (m & q & Hu & Hm).
  { apply (f_equal String.length) in Hs. rewrite length_append in Hs.
    unfold len in *. lia. }
  assert (Hlp : len p = a) by (unfold len; lia).
  assert (Hlm : len m = b - a) by (unfold len; lia).
  subst u. subst s.
  replace b with (len p + len m) by lia. rewrite <- Hlp at 1.
  rewrite slice_middle.
  (* the runes of the whole string, cut at both ends of the span *)
  unfold range_string in *.
  assert (Hcut1 : range_from 0 0 (p ++ m ++ q)
                  = (range_from 0 0 p ++ range_from a 0 (m ++ q))%list).
  { rewrite <- Hlp, <- (Z.add_0_l (len p)).
    apply range_from_split; [lia|]. right. now rewrite Z.add_0_l, Hlp. }
  assert (Hcut2 : range_from a 0 (m ++ q)
                  = (range_from a 0 m ++ range_from b 0 q)%list).
  { replace b with (a + len m) by lia. apply range_from_split; [lia|].
    destruct Hb as [Hb|Hb].
    - right. rewrite Hcut1, map_app in Hb. apply elem_of_app in Hb as [Hb|Hb].
      + apply list_elem_of_fmap in Hb as (ir & Heq & Hb).
        destruct (range_from_ascending p 0 0) as [_ Hhi].
        rewrite Forall_forall in Hhi. apply Hhi in Hb. lia.
      + replace (a + len m) with b by lia. exact Hb.
    - left. rewrite !len_append in Hb. destruct q; [reflexivity|].
      unfold len in *. cbn [String.length] in Hb. lia. }
  unfold clean_word. apply andb_true_iff. split.
  - destruct m; [unfold len in Hlm; cbn in Hlm; lia | reflexivity].
  - apply forallb_forall. intros ir Hin. apply negb_true_iff.
    apply list_elem_of_In in Hin.
    assert (Hrn : snd ir ∈ map snd (range_from a 0 m)).
    { rewrite (range_from_runes m a 0 0). apply list_elem_of_fmap.
      now exists ir. }
    apply list_elem_of_fmap in Hrn as (ir' & Heq & Hin').
    rewrite Heq. apply Hclean.
    + rewrite Hcut1, Hcut2. apply elem_of_app. right. apply elem_of_app. now left.
    + destruct (range_from_ascending m a 0) as [_ Hhi].
      pose proof (range_from_lower m a 0) as Hlo.
      rewrite Forall_forall in Hhi, Hlo.
      apply Hhi in Hin' as H1. apply Hlo in Hin' as H2. lia.
Qed.

(** Every field is a clean word: not empty and without a white-space
    rune. *)
Lemma Fields_clean (s : string) :
  Forall (fun field => clean_word field = true) (Fields s).
Proof.
  unfold Fields, FieldsFunc, field_spans.
  destruct (range_from_ascending s 0 0) as [Hasc Hhi]. rewrite Z.add_0_l in Hhi.
  destruct (ascending_sorted _ _ Hasc) as [_ Hsorted].
  pose proof (fields_loop_field_spans IsSpace (range_string s) (len s) Hsorted Hhi
                (range_string s) [] (-1) [] eq_refl ltac:(constructor)
                ltac:(lia)) as H.
  destruct (fields_loop IsSpace (range_string s) (-1) []) as [start spans].
  cbn [fst snd] in H. apply Forall_fmap. eapply Forall_impl; [exact H|].
  intros [a b] Hspan. now apply field_span_clean.
Qed.

(** Splitting into fields, joining them by single spaces and splitting
    again gives the same fields. *)
Lemma Fields_Join_Fields (s : string) : Fields (Join (Fields s) " ") = Fields s.
Proof. apply Fields_Join, Fields_clean. Qed.

End CleanFieldFacts.

(* ===================================================================== *)
(** * Further properties of [runCommand]                                  *)
(* ===================================================================== *)

Section OccurrenceFacts.

Lemma contains_false (sub s : string) :
  contains sub s = false -> forall p q, s <> p ++ sub ++ q.
Proof.
  induction s as [|c t IH]; intros H p q Heq.
  - cbn [contains] in H. apply orb_false_iff in H as [H _].
    destruct p as [|x p]; [|discriminate Heq]. rewrite append_nil_l in Heq.
    rewrite Heq, prefix_append in H. discriminate.
  - cbn [contains] in H. apply orb_false_iff in H as [H1 H2].
    destruct p as [|x p].
    + rewrite append_nil_l in Heq. rewrite Heq, prefix_append in H1. discriminate.
    + rewrite append_cons in Heq. injection Heq as _ Heq. exact (IH H2 p q Heq).
Qed.

(** Arguments whose placeholders do not occur in the command change
    nothing. *)
Lemma substitute_from_absent (args : list string) (i : Z) (command : string) :
  (forall j, i <= j < i + Z.of_nat (length args) ->
             contains (placeholder j) command = false) ->
  substitute_from i args command = command.
Proof.
  revert i. induction args as [|arg rest IH]; intros i H; [reflexivity|].
  cbn [substitute_from length] in *.
  rewrite placeholder_cons, ReplaceAll_no_occurrence.
  - apply IH. intros j Hj. apply H. lia.
  - apply (contains_false (placeholder i)). apply H. lia.
Qed.

Lemma placeholders_absent_spec (template : string) (n : nat) :
  placeholders_absent template n = true ->
  forall j, 0 <= j < 0 + Z.of_nat n -> contains (placeholder j) template = false.
Proof.
  unfold placeholders_absent. rewrite forallb_forall. intros H j Hj.
  specialize (H (Z.to_nat j)). rewrite Z2Nat.id in H by lia.
  apply negb_true_iff, H, in_seq. lia.
Qed.

Lemma substitute_absent (template : string) (args : list string) :
  placeholders_absent template (length args) = true ->
  substitute template args = template.
Proof.
  intros H. apply substitute_from_absent, placeholders_absent_spec, H.
Qed.

End OccurrenceFacts.

(** X9: a run starts at most one process, and only as its first action:
    if a process is started at all, nothing but its error report can
    follow, and the program name and every argument handed to it are clean
    words, not empty and free of white space, however the command was
    stored and the arguments were given; a run always prints a line or
    starts a process. *)
Theorem X9_run_starts_at_most_one_process :
  forall w b alias args,
    let evs := events (runCommand w b alias args) in
    evs <> []
    /\ (forall name argv, Exec name argv ∈ evs ->
          (exists report, evs = Exec name argv :: report
                          /\ Forall (fun e => is_exec e = false) report)
          /\ Forall (fun word => clean_word word = true) (name :: argv)).
Proof.
  intros w b alias args evs. subst evs. unfold runCommand, View.
  destruct (Get b alias) as [template|]; cbn [events returned].
  2:{ split; [discriminate|]. intros name argv Hin.
      apply list_elem_of_singleton in Hin. discriminate. }
  pose proof (Fields_clean (substitute template args)) as Hclean.
  destruct (Fields (substitute template args)) as [|name0 argv0].
  { split; [discriminate|]. intros name argv Hin.
    apply list_elem_of_singleton in Hin. discriminate. }
  destruct (run_child w name0 argv0) as [err|]; cbn [events returned];
    (split; [discriminate|]); intros name argv Hin.
  - apply elem_of_cons in Hin as [Heq|Hin];
      [|apply list_elem_of_singleton in Hin; discriminate].
    injection Heq as -> ->. split; [|exact Hclean].
    eexists. split; [reflexivity|]. now constructor.
  - apply list_elem_of_singleton in Hin. injection Hin as -> ->.
    split; [|exact Hclean]. eexists. split; [reflexivity | constructor].
Qed.

Lemma X9_witness :
  (exists report,
      events (runCommand quiet_world {[ "g" := "git status" ]} "g" [])
      = Exec "git" ["status"] :: report
      /\ Forall (fun e => is_exec e = false) report)
  /\ Forall (fun word => clean_word word = true) ("git" :: ["status"]).
Proof.
  apply (X9_run_starts_at_most_one_process quiet_world {[ "g" := "git status" ]} "g" []).
  vm_compute. apply list_elem_of_here.
Defined.

(** X10: arguments whose placeholders do not occur in the stored command
    are ignored: the run is the same as without any argument. *)
Theorem X10_unreferenced_arguments_ignored :
  forall w b alias template args,
    Get b alias = Some template ->
    placeholders_absent template (length args) = true ->
    substitute template args = template
    /\ runCommand w b alias args = runCommand w b alias [].
Proof.
  intros w b alias template args Hget Habs.
  pose proof (substitute_absent template args Habs) as Hsub.
  split; [exact Hsub|].
  rewrite !(runCommand_present _ _ _ _ _ Hget). now rewrite Hsub.
Qed.

Lemma X10_witness :
  substitute "echo $HOME $3" ["a"; "b"] = "echo $HOME $3"
  /\ runCommand quiet_world {[ "e" := "echo $HOME $3" ]} "e" ["a"; "b"]
     = runCommand quiet_world {[ "e" := "echo $HOME $3" ]} "e" [].
Proof.
  apply (X10_unreferenced_arguments_ignored quiet_world
           {[ "e" := "echo $HOME $3" ]} "e" "echo $HOME $3" ["a"; "b"]);
    reflexivity.
Defined.

Section JoinAppFacts.

Lemma Join_app (xs ys : list string) :
  xs <> [] -> ys <> [] ->
  Join (xs ++ ys) " " = Join xs " " ++ " " ++ Join ys " ".
Proof.
  intros Hx Hy. induction xs as [|x xs IH]; [congruence|]. clear Hx.
  destruct xs as [|x' xs].
  - destruct ys as [|y ys]; [congruence | reflexivity].
  - change ((x :: x' :: xs) ++ ys)%list with (x :: x' :: (xs ++ ys))%list.
    rewrite !Join_cons.
    change (x' :: (xs ++ ys))%list with ((x' :: xs) ++ ys)%list.
    rewrite IH by discriminate. now rewrite append_assoc.
Qed.

(** The joined text does not tell how its last words were split into
    arguments. *)
Lemma Join_regroup (xs ys : list string) :
  ys <> [] -> Join (xs ++ ys) " " = Join (xs ++ [Join ys " "]) " ".
Proof.
  intros Hy. destruct xs as [|x xs]; [reflexivity|].
  rewrite !Join_app by (discriminate || assumption). reflexivity.
Qed.

End JoinAppFacts.

(** X11: what [save] stores and [run] starts fit together: after a
    successful save of clean words (non-empty, free of white space), a run
    of the alias starts the first word as the program with the other words
    as its arguments, provided that no placeholder of a supplied argument
    occurs in the words; without arguments this always holds. *)
Theorem X11_saved_words_are_run :
  forall w w' b alias name rest args,
    Forall (fun x => clean_word x = true) (name :: rest) ->
    events (saveCmd w b (alias :: name :: rest))
    = [Print ("Command saved with alias: " ++ alias ++ nl)] ->
    placeholders_absent (Join (name :: rest) " ") (length args) = true ->
    exists report,
      events (runCommand w' (bucket (saveCmd w b (alias :: name :: rest))) alias args)
      = Exec name rest :: report.
Proof.
  intros w w' b alias name rest args Hclean Hsaved Habs.
  rewrite (saveCmd_success_inv _ _ _ _ Hsaved).
  rewrite (runCommand_present _ _ _ (Join (name :: rest) " "))
    by apply lookup_insert_eq.
  rewrite (substitute_absent _ _ Habs), (Fields_Join _ Hclean).
  destruct (run_child w' name rest); eexists; reflexivity.
Qed.

Lemma X11_witness :
  exists report,
    events (runCommand quiet_world
              (bucket (saveCmd quiet_world ∅ ["g"; "git"; "status"; "--short"]))
              "g" [])
    = Exec "git" ["status"; "--short"] :: report.
Proof.
  apply (X11_saved_words_are_run quiet_world quiet_world ∅ "g" "git"
           ["status"; "--short"] []).
  - repeat constructor.
  - reflexivity.
  - reflexivity.
Defined.



(** X13: [save] and [edit] store the words after the alias joined by
    single spaces, so the stored text does not tell how the command was
    split into arguments: giving the last words as one argument that
    holds them joined by spaces has the same effect. *)
Theorem X13_stored_text_forgets_argument_boundaries :
  forall w b alias first last,
    last <> [] ->
    saveCmd w b (alias :: first ++ last)
    = saveCmd w b (alias :: first ++ [Join last " "])
    /\ editCmd w b (alias :: first ++ last)
       = editCmd w b (alias :: first ++ [Join last " "]).
Proof.
  intros w b alias first last Hne. unfold saveCmd, editCmd.
  now rewrite (Join_regroup first last Hne).
Qed.

Lemma X13_witness :
  saveCmd quiet_world ∅ ("g" :: [] ++ ["git"; "status"])
  = saveCmd quiet_world ∅ ("g" :: [] ++ [Join ["git"; "status"] " "])
  /\ editCmd quiet_world ∅ ("g" :: [] ++ ["git"; "status"])
     = editCmd quiet_world ∅ ("g" :: [] ++ [Join ["git"; "status"] " "]).
Proof.
  apply (X13_stored_text_forgets_argument_boundaries quiet_world ∅ "g" []
           ["git"; "status"]).
  discriminate.
Defined.

Section LeadingDigitFacts.



(** The numerals of two different numbers from 1 to 9 do not start one
    another. *)
Lemma single_digits_apart (j k : Z) :
  0 < j < k -> k <= 9 -> String.prefix (itoa j) (itoa k) = false.
Proof.
  intros Hj Hk.
  assert (Hks : k = 2 \/ k = 3 \/ k = 4 \/ k = 5 \/ k = 6 \/ k = 7 \/ k = 8 \/ k = 9)
    by lia.
  assert (Hjs : j = 1 \/ j = 2 \/ j = 3 \/ j = 4 \/ j = 5 \/ j = 6 \/ j = 7 \/ j = 8)
    by lia.
  repeat (destruct Hks as [->|Hks]); try subst k;
    repeat (destruct Hjs as [->|Hjs]); try subst j; reflexivity || lia.
Qed.


End LeadingDigitFacts.

Section PassFacts.

Lemma substitute_from_app (xs ys : list string) (i : Z) (command : string) :
  substitute_from i (xs ++ ys) command
  = substitute_from (i + Z.of_nat (length xs)) ys (substitute_from i xs command).
Proof.
  revert i command. induction xs as [|x xs IH]; intros i command.
  - cbn. now rewrite Z.add_0_r.
  - cbn [app substitute_from length]. rewrite IH. f_equal. lia.
Qed.





End PassFacts.



Section PlaceholderFacts.

(** The passes before the one of "$k" leave a command alone whose only
    '$' is that of "$k", when none of their placeholders starts "$k". *)
Lemma earlier_passes_keep (k : Z) (before : list string) (pre post : string) :
  Z.of_nat (length before) < k ->
  (forall j, 0 < j <= Z.of_nat (length before) ->
             String.prefix (itoa j) (itoa k) = false) ->
  substitute_from 0 before (pre ++ "$" ++ itoa k ++ post)
  = substitute_from 0 before pre ++ "$" ++ itoa k ++ substitute_from 0 before post.
Proof.
  intros Hk Hj. apply substitute_from_keeps_placeholder; [lia | lia |].
  intros j Hr. apply Hj. lia.
Qed.

Lemma args_split (args : list string) (n : nat) (arg : string) :
  args !! n = Some arg ->
  args = (take n args ++ arg :: skipn (S n) args)%list /\ length (take n args) = n.
Proof.
  intros H. split.
  - now rewrite <- (take_drop_middle args n arg H) at 1.
  - apply length_take_le, Nat.lt_le_incl, (lookup_lt_Some _ _ _ H).
Qed.

End PlaceholderFacts.

(** X15: a placeholder "$1" to "$9" that has an argument is replaced by
    it: when the command holds no other '$' and the argument holds none,
    the result is the command with the argument in the place of the
    placeholder, whatever the other arguments are. *)
Theorem X15_single_digit_placeholder_replaced :
  forall pre post args k arg,
    1 <= k <= 9 ->
    args !! Z.to_nat (k - 1) = Some arg ->
    has_byte "$" pre = false -> has_byte "$" post = false ->
    has_byte "$" arg = false ->
    substitute (pre ++ "$" ++ itoa k ++ post) args = pre ++ arg ++ post.
Proof.
  intros pre post args k arg Hk Harg Hpre Hpost Hclean.
  destruct (args_split _ _ _ Harg) as [Hargs Hlen].
  unfold substitute. rewrite Hargs, substitute_from_app, Hlen, Z.add_0_l.
  rewrite earlier_passes_keep; [| rewrite Hlen; lia |].
  2:{ intros j Hj. rewrite Hlen in Hj. apply single_digits_apart; lia. }
  rewrite (substitute_from_clean 0 _ pre Hpre), (substitute_from_clean 0 _ post Hpost).
  cbn [substitute_from]. rewrite Z2Nat.id by lia.
  pose proof (pass_replaces_every_occurrence (k - 1) arg pre post ltac:(lia))
    as Hpass.
  rewrite placeholder_cons in *. replace (k - 1 + 1) with k in * by lia.
  change (pre ++ "$" ++ itoa k ++ post) with (pre ++ String "$" (itoa k) ++ post).
  rewrite Hpass, !ReplaceAll_absent_byte by assumption.
  apply substitute_from_clean. now rewrite !has_byte_append, Hpre, Hclean, Hpost.
Qed.

Lemma X15_witness :
  substitute ("cp " ++ "$" ++ itoa 2 ++ " /backup") ["$1"; "notes.txt"; "$7"]
  = "cp " ++ "notes.txt" ++ " /backup".
Proof.
  apply (X15_single_digit_placeholder_replaced "cp " " /backup"
           ["$1"; "notes.txt"; "$7"] 2 "notes.txt"); try reflexivity. lia.
Defined.



Section ProcessFacts.



End ProcessFacts.



(** X18: after a successful save or edit, the listing shows one entry for
    the alias and it holds the text just written: any text stored under the
    alias before is gone, and the entries of the other aliases are the
    ones from before. *)
Theorem X18_listing_shows_the_last_text :
  forall w b alias rest key value,
    let saved := bucket (saveCmd w b (alias :: rest)) in
    let edited := bucket (editCmd w b (alias :: rest)) in
    (events (saveCmd w b (alias :: rest))
     = [Print ("Command saved with alias: " ++ alias ++ nl)] ->
     ((key, value) ∈ entries saved
      <-> (key = alias /\ value = Join rest " ")
          \/ (key <> alias /\ (key, value) ∈ entries b)))
    /\ (events (editCmd w b (alias :: rest))
        = [Print ("Command updated for alias: " ++ alias ++ nl)] ->
        ((key, value) ∈ entries edited
         <-> (key = alias /\ value = Join rest " ")
             \/ (key <> alias /\ (key, value) ∈ entries b))).
Proof.
  intros w b alias rest key value saved edited. subst saved edited.
  assert (Hins : (key, value) ∈ entries (<[alias := Join rest " "]> b)
                 <-> (key = alias /\ value = Join rest " ")
                     \/ (key <> alias /\ (key, value) ∈ entries b)).
  { rewrite !entries_elem_of. destruct (decide (key = alias)) as [->|Hne].
    - rewrite lookup_insert_eq. split.
      + intros [= <-]. now left.
      + intros [[_ ->]|[Hne _]]; [reflexivity | congruence].
    - rewrite lookup_insert_ne by congruence. split.
      + intros H. now right.
      + intros [[Heq _]|[_ H]]; [congruence | exact H]. }
  split; intros Hok.
  - now rewrite (saveCmd_success_inv _ _ _ _ Hok).
  - destruct (editCmd_cases w b alias rest) as [(_ & _ & H)|[e H]];
      rewrite H in *; cbn [bucket events returned] in *; [exact Hins|].
    discriminate Hok.
Qed.

Lemma X18_witness :
  (("g", "git log") : string * string)
    ∈ entries (bucket (saveCmd quiet_world {[ "g" := "git status" ]} ["g"; "git"; "log"]))
  <-> ("g" = "g" /\ "git log" = Join ["git"; "log"] " ")
      \/ ("g" <> "g" /\ (("g", "git log") : string * string)
                          ∈ entries ({[ "g" := "git status" ]} : Bucket)).
Proof.
  apply (proj1 (X18_listing_shows_the_last_text quiet_world
                  {[ "g" := "git status" ]} "g" ["git"; "log"] "g" "git log")).
  reflexivity.
Defined.

(** X19: on an alias that is stored, [edit] writes what [save] writes: the
    two leave the same store behind, they succeed or fail together, and
    they differ only in the wording of the line they print; on an alias
    that is not stored, [edit] writes nothing whereas [save] may. *)
Theorem X19_edit_is_save_on_stored_aliases :
  forall w b alias rest old,
    Get b alias = Some old ->
    bucket (editCmd w b (alias :: rest)) = bucket (saveCmd w b (alias :: rest))
    /\ (events (editCmd w b (alias :: rest))
        = [Print ("Command updated for alias: " ++ alias ++ nl)]
        <-> events (saveCmd w b (alias :: rest))
            = [Print ("Command saved with alias: " ++ alias ++ nl)]).
Proof.
  intros w b alias rest old Hget. unfold editCmd, saveCmd, Update.
  rewrite Hget. destruct (Put b alias (Join rest " ")) as [e|b'].
  - split; [reflexivity|]. split; intros H; discriminate H.
  - destruct (commit_fault w) as [e|].
    + split; [reflexivity|]. split; intros H; discriminate H.
    + split; [reflexivity|]. split; reflexivity.
Qed.

Lemma X19_witness :
  bucket (editCmd quiet_world {[ "g" := "git status" ]} ["g"; "git"; "log"])
  = bucket (saveCmd quiet_world {[ "g" := "git status" ]} ["g"; "git"; "log"])
  /\ (events (editCmd quiet_world {[ "g" := "git status" ]} ["g"; "git"; "log"])
      = [Print ("Command updated for alias: " ++ "g" ++ nl)]
      <-> events (saveCmd quiet_world {[ "g" := "git status" ]} ["g"; "git"; "log"])
          = [Print ("Command saved with alias: " ++ "g" ++ nl)]).
Proof.
  apply (X19_edit_is_save_on_stored_aliases quiet_world {[ "g" := "git status" ]}
           "g" ["git"; "log"] "git status").
  reflexivity.
Defined.
